(** * asciify.calldata.space: the caching middleware and the selection indexer

    A shallow embedding of [src/middleware.ts] (the ETag / If-None-Match
    middleware) and of the selection handler of
    [src/components/AsciifyReact.tsx], with the properties the
    specification states about them. *)

#[local] Set Warnings "-register-all".
From Stdlib Require Import NArith Ascii String Strings.Byte List Lia Bool.
From stdpp Require Import base gmap sets list strings.
From Equations Require Import Equations.
From Equations.Prop Require Import Logic.
Import ListNotations.

(** ** The platform's SHA-256 ([crypto.subtle.digest("SHA-256", _)])

    The middleware hashes with the Web Crypto primitive.  It is written
    out here after FIPS 180-4 on 32-bit words held in [N], so that the
    validators of concrete bodies can be evaluated. *)
Module SHA256.
Local Open Scope N_scope.

Definition mask32 : N := 0xFFFFFFFF.
Definition w32 (x : N) : N := N.land x mask32.
Definition add32 (a b : N) : N := w32 (a + b).
Definition rotr (k x : N) : N :=
  N.lor (N.shiftr x k) (w32 (N.shiftl x (32 - k))).
Definition not32 (x : N) : N := N.lxor x mask32.

Definition Ch (x y z : N) : N := N.lxor (N.land x y) (N.land (not32 x) z).
Definition Maj (x y z : N) : N :=
  N.lxor (N.lxor (N.land x y) (N.land x z)) (N.land y z).
Definition Sigma0 (x : N) : N := N.lxor (N.lxor (rotr 2 x) (rotr 13 x)) (rotr 22 x).
Definition Sigma1 (x : N) : N := N.lxor (N.lxor (rotr 6 x) (rotr 11 x)) (rotr 25 x).
Definition sigma0 (x : N) : N := N.lxor (N.lxor (rotr 7 x) (rotr 18 x)) (N.shiftr x 3).
Definition sigma1 (x : N) : N := N.lxor (N.lxor (rotr 17 x) (rotr 19 x)) (N.shiftr x 10).

(** The round constants and the initial state come from the first 64
    primes: the first 32 bits of the fractional parts of their cube
    roots, and of the square roots of the first eight. *)
Definition is_prime (n : nat) : bool :=
  forallb (fun d => negb (Nat.eqb (Nat.modulo n d) 0)) (seq 2 (n - 2)).

Definition primes : list N :=
  Eval vm_compute in map N.of_nat (List.filter is_prime (seq 2 310)).

(** The largest [r] with [r ^ k <= x], built bit by bit from bit [bits - 1]. *)
Fixpoint root_bits (k : N) (bits : nat) (x r : N) : N :=
  match bits with
  | O => r
  | S b =>
      let c := r + 2 ^ N.of_nat b in
      root_bits k b x (if c ^ k <=? x then c else r)
  end.

Definition frac_root (k p : N) : N := w32 (root_bits k 40 (p * 2 ^ (32 * k)) 0).

Definition K : list N := Eval vm_compute in map (frac_root 3) primes.

(** The eight working words. *)
Record state := State { sa : N; sb : N; sc : N; sd : N; se : N; sf : N; sg : N; sh : N }.

Definition H0 : state :=
  Eval vm_compute in
    let h := map (frac_root 2) (firstn 8 primes) in
    State (nth 0 h 0) (nth 1 h 0) (nth 2 h 0) (nth 3 h 0)
          (nth 4 h 0) (nth 5 h 0) (nth 6 h 0) (nth 7 h 0).

(** Big-endian bytes of a 64-bit and of a 32-bit quantity. *)
Definition byte_of_N (n : N) : byte := byte_of_ascii (ascii_of_N n).
Definition be_bytes (count : nat) (x : N) : list byte :=
  map (fun i => byte_of_N (N.land (N.shiftr x (8 * N.of_nat i)) 0xFF))
      (rev (seq 0 count)).

Definition pad (msg : list byte) : list byte :=
  let len := length msg in
  let zeros := Nat.modulo (64 - Nat.modulo (len + 9) 64) 64 in
  msg ++ [x80%byte] ++ repeat x00%byte zeros ++ be_bytes 8 (8 * N.of_nat len).

Definition be_word (bs : list byte) : N :=
  fold_left (fun acc b => N.shiftl acc 8 + Byte.to_N b) bs 0.

Fixpoint words (count : nat) (bs : list byte) : list N :=
  match count with
  | O => []
  | S c => be_word (firstn 4 bs) :: words c (skipn 4 bs)
  end.

(** The message schedule, latest word first. *)
Fixpoint schedule (count : nat) (wrev : list N) : list N :=
  match count with
  | O => wrev
  | S c =>
      let w := add32 (add32 (sigma1 (nth 1 wrev 0)) (nth 6 wrev 0))
                     (add32 (sigma0 (nth 14 wrev 0)) (nth 15 wrev 0)) in
      schedule c (w :: wrev)
  end.

Definition round (s : state) (kw : N * N) : state :=
  let t1 := add32 (add32 (add32 (sh s) (Sigma1 (se s)))
                         (add32 (Ch (se s) (sf s) (sg s)) (fst kw))) (snd kw) in
  let t2 := add32 (Sigma0 (sa s)) (Maj (sa s) (sb s) (sc s)) in
  State (add32 t1 t2) (sa s) (sb s) (sc s) (add32 (sd s) t1) (se s) (sf s) (sg s).

Definition compress (s : state) (block : list byte) : state :=
  let w := rev (schedule 48 (rev (words 16 block))) in
  let r := fold_left round (combine K w) s in
  State (add32 (sa s) (sa r)) (add32 (sb s) (sb r)) (add32 (sc s) (sc r))
        (add32 (sd s) (sd r)) (add32 (se s) (se r)) (add32 (sf s) (sf r))
        (add32 (sg s) (sg r)) (add32 (sh s) (sh r)).

Fixpoint blocks (count : nat) (s : state) (bs : list byte) : state :=
  match count with
  | O => s
  | S c => blocks c (compress s (firstn 64 bs)) (skipn 64 bs)
  end.

Definition hash (msg : list byte) : list byte :=
  let p := pad msg in
  let s := blocks (Nat.div (length p) 64) H0 p in
  be_bytes 4 (sa s) ++ be_bytes 4 (sb s) ++ be_bytes 4 (sc s) ++ be_bytes 4 (sd s) ++
  be_bytes 4 (se s) ++ be_bytes 4 (sf s) ++ be_bytes 4 (sg s) ++ be_bytes 4 (sh s).

End SHA256.


(** ** JavaScript strings and values shared by both files *)

Definition dquote : string := String "034"%char EmptyString.

(** [v] in a boolean position, for a value that is a string or [null]:
    [null] and the empty string are falsy. *)
Definition truthy (v : option string) : bool :=
  match v with
  | Some s => negb (String.eqb s EmptyString)
  | None => false
  end.

(** The value where it is truthy, as the branch of an [if (v)] sees it. *)
Definition narrow (v : option string) : option string :=
  if truthy v then v else None.

(** [a === b] on values that are strings or [null]. *)
Definition strict_eq (a b : option string) : bool :=
  match a, b with
  | Some x, Some y => String.eqb x y
  | None, None => true
  | _, _ => false
  end.

Definition hex_digit (d : N) : string :=
  String (ascii_of_N (if (d <? 10)%N then 48 + d else 87 + d)%N) EmptyString.

(** [n.toString(16)] for a non-negative integer. *)
Equations toString16 (n : N) : string by wf (N.to_nat n) lt :=
  toString16 n with inspect (n <? 16)%N := {
    | exist _ true _ := hex_digit n;
    | exist _ false H := toString16 (n / 16)%N +:+ hex_digit (n mod 16)%N }.
Next Obligation.
  apply N.ltb_ge in H.
  assert (n / 16 < n)%N by (apply N.div_lt; lia). lia.
Qed.

Fixpoint repeat_string (p : string) (k : nat) : string :=
  match k with
  | O => EmptyString
  | S k' => p +:+ repeat_string p k'
  end.

(** [s.padStart(targetLength, padString)]. *)
Definition padStart (s : string) (targetLength : nat) (padString : string) : string :=
  let len := String.length s in
  if (targetLength <=? len)%nat || (String.length padString =? 0)%nat then s
  else
    let fill := targetLength - len in
    substring 0 fill (repeat_string padString fill) +:+ s.

(** The callback of [digest]'s [map]: [b.toString(16).padStart(2, "0")]. *)
Definition hex_pair (b : byte) : string := padStart (toString16 (Byte.to_N b)) 2 "0".

(** Lowercase hexadecimal digits, and strings made of them. *)
Definition lower_hex (c : ascii) : bool :=
  let n := nat_of_ascii c in
  ((48 <=? n) && (n <=? 57)) || ((97 <=? n) && (n <=? 102)).

Fixpoint string_forall (p : ascii -> bool) (s : string) : bool :=
  match s with
  | EmptyString => true
  | String c r => p c && string_forall p r
  end.

(** ** [src/middleware.ts] *)
Module Middleware.

(** *** Completions of awaited calls, and the middleware's trace *)

Inductive Exception :=
| TypeError (msg : string)
| RangeError (msg : string)
| Rejected (reason : string).

Inductive Completion (A : Type) :=
| Return (a : A)
| Throw (e : Exception).
Arguments Return {A} a.
Arguments Throw {A} e.

(** What the middleware does to the body on its way: drains a clone,
    hashes a buffer. *)
Inductive Event :=
| Drained (buf : list byte)
| Hashed (data : list byte).

Definition Async (A : Type) : Type := list Event -> Completion A * list Event.

Definition ret {A} (a : A) : Async A := fun t => (Return a, t).
Definition throw {A} (e : Exception) : Async A := fun t => (Throw e, t).
Definition bind {A B} (m : Async A) (k : A -> Async B) : Async B :=
  fun t => match m t with
           | (Return a, t') => k a t'
           | (Throw e, t') => (Throw e, t')
           end.
Definition await {A} (c : Completion A) : Async A := fun t => (c, t).
Definition emit (ev : Event) : Async unit := fun t => (Return tt, t ++ [ev]).

Declare Scope async_scope.
Delimit Scope async_scope with async.
Notation "x <- m ;; k" := (bind m (fun x => k))
  (at level 100, m at next level, right associativity) : async_scope.
Local Open Scope async_scope.

Definition run {A} (m : Async A) : Completion A * list Event := m [].

(** *** [Headers] *)

Definition lower_ascii (c : ascii) : ascii :=
  let n := nat_of_ascii c in
  if (65 <=? n)%nat && (n <=? 90)%nat then ascii_of_nat (n + 32) else c.

Fixpoint lower (s : string) : string :=
  match s with
  | EmptyString => EmptyString
  | String c r => String (lower_ascii c) (lower r)
  end.

(** A header list, in order; names compare without regard to case, and
    values are kept as they are given. *)
Definition Headers := list (string * string).

Definition name_eqb (a b : string) : bool := String.eqb (lower a) (lower b).

Definition new_Headers : Headers := [].
Definition copy_Headers (h : Headers) : Headers := h.

(** [h.get(name)]: [null] when no header has the name, else the values
    of all headers of that name, joined with a comma and a space. *)
Definition Headers_get (h : Headers) (name : string) : option string :=
  match List.filter (fun kv => name_eqb (fst kv) name) h with
  | [] => None
  | kvs => Some (String.concat ", " (map snd kvs))
  end.

(** [h.set(name, value)]: the first header of that name takes the value
    and the others of that name go; with none, the header is appended. *)
Fixpoint Headers_set (h : Headers) (name value : string) : Headers :=
  match h with
  | [] => [(name, value)]
  | (k, v) :: rest =>
      if name_eqb k name
      then (k, value) :: List.filter (fun kv => negb (name_eqb (fst kv) name)) rest
      else (k, v) :: Headers_set rest name value
  end.

(** *** [Response] *)

(** A body stream: the chunks it delivers, and whether it then errors
    instead of closing. *)
Record BodyStream := {
  chunks : list (list byte);
  failure : option string
}.

Record Response := {
  status : nat;
  statusText : string;
  headers : Headers;
  body : option BodyStream
}.

Record ResponseInit := {
  init_status : nat;
  init_statusText : string;
  init_headers : Headers
}.

Definition null_body_status (s : nat) : bool :=
  existsb (Nat.eqb s) [101; 103; 204; 205; 304]%nat.

(** [new Response(body, init)], with a body that is [null] or an
    [ArrayBuffer]: a [RangeError] for a status outside 200..599 and a
    [TypeError] for a body on a null-body status. *)
Definition new_Response (b : option (list byte)) (init : ResponseInit)
  : Completion Response :=
  if negb ((200 <=? init_status init)%nat && (init_status init <=? 599)%nat)
  then Throw (RangeError "status")
  else match b with
       | Some buf =>
           if null_body_status (init_status init)
           then Throw (TypeError "null body status")
           else Return {| status := init_status init;
                          statusText := init_statusText init;
                          headers := init_headers init;
                          body := Some {| chunks := [buf]; failure := None |} |}
       | None =>
           Return {| status := init_status init;
                     statusText := init_statusText init;
                     headers := init_headers init;
                     body := None |}
       end.

(** [r.clone()]: the clone reads the same bytes as the original. *)
Definition clone (r : Response) : Response := r.

(** [await r.arrayBuffer()]: all chunks, in order, in one buffer;
    rejects when the stream errors. *)
Definition arrayBuffer (r : Response) : Async (list byte) :=
  match body r with
  | None => ret []
  | Some s =>
      match failure s with
      | Some reason => throw (Rejected reason)
      | None => let buf := concat (chunks s) in
                _ <- emit (Drained buf) ;; ret buf
      end
  end.

Record Request := { req_headers : Headers }.
Record APIContext := { request : Request }.

Definition long_lived : string := "public, max-age=31536000, must-revalidate".

Section Platform.

(** [new TextEncoder().encode] and [crypto.subtle.digest("SHA-256", _)]. *)
Variable TextEncoder_encode : string -> list byte.
Variable subtle_digest : list byte -> Completion (list byte).

Definition digest (val : string + list byte) : Async string :=
  let data := match val with
              | inl s => TextEncoder_encode s
              | inr bytes => bytes
              end in
  _ <- emit (Hashed data) ;;
  hash <- await (subtle_digest data) ;;
  ret (String.concat EmptyString (map hex_pair hash)).

(** Lines 39 to 47: the clone's bytes and the validator made of them. *)
Definition computeEtag (response : Response) : Async (list byte * string) :=
  let cloned := clone response in
  buf <- arrayBuffer cloned ;;
  hash <- digest (inr buf) ;;
  let etag := dquote +:+ hash +:+ dquote in
  ret (buf, etag).

Definition onRequest (context : APIContext) (next : Completion Response)
  : Async Response :=
  let req := request context in
  let ifNoneMatch := Headers_get (req_headers req) "if-none-match" in
  response <- await next ;;
  let existingEtag := Headers_get (headers response) "etag" in
  match narrow existingEtag with
  | Some existingEtag =>
    if truthy ifNoneMatch && strict_eq ifNoneMatch (Some existingEtag) then
      let hs := new_Headers in
      let hs := Headers_set hs "ETag" existingEtag in
      let hs := Headers_set hs "Cache-Control" long_lived in
      await (new_Response None
               {| init_status := 304; init_statusText := EmptyString; init_headers := hs |})
    else ret response
  | None =>
    match body response with
    | None => ret response
    | Some _ =>
        be <- computeEtag response ;;
        let buf := fst be in
        let etag := snd be in
        if truthy ifNoneMatch && strict_eq ifNoneMatch (Some etag) then
          let hs := copy_Headers (headers response) in
          let hs := Headers_set hs "ETag" etag in
          let hs := Headers_set hs "Cache-Control" long_lived in
          await (new_Response None
                   {| init_status := 304; init_statusText := EmptyString; init_headers := hs |})
        else
          let hs := copy_Headers (headers response) in
          let hs := Headers_set hs "ETag" etag in
          let hs := Headers_set hs "Cache-Control" long_lived in
          await (new_Response (Some buf)
                   {| init_status := status response;
                      init_statusText := statusText response;
                      init_headers := hs |})
    end
  end.

End Platform.

(** The platform the middleware runs on: SHA-256 never rejects. *)
Definition webcrypto_digest (data : list byte) : Completion (list byte) :=
  Return (SHA256.hash data).

(** *** The vocabulary of the statements *)

(** The headers of a given name, and the others, in order. *)
Definition named (name : string) (h : Headers) : Headers :=
  List.filter (fun kv => name_eqb (fst kv) name) h.
Definition others (name : string) (h : Headers) : Headers :=
  List.filter (fun kv => negb (name_eqb (fst kv) name)) h.

(** The quoted validator of a byte buffer. *)
Definition validator (buf : list byte) : string :=
  dquote +:+ String.concat EmptyString (map hex_pair (SHA256.hash buf)) +:+ dquote.


Definition not_modified (hs : Headers) : Response :=
  {| status := 304; statusText := EmptyString; headers := hs; body := None |}.

Definition producer_validator (r : Response) : option string :=
  narrow (Headers_get (headers r) "etag").

Definition if_none_match (ctx : APIContext) : option string :=
  Headers_get (req_headers (request ctx)) "if-none-match".

(** *** Concrete exchanges *)

Definition bytes_of_string (s : string) : list byte :=
  map byte_of_ascii (list_ascii_of_string s).

Definition quoted (s : string) : string := dquote +:+ s +:+ dquote.

Definition ex_context (inm : option string) : APIContext :=
  {| request := {| req_headers := match inm with
                                  | Some v => [("If-None-Match", v)]
                                  | None => []
                                  end |} |}.

Definition ex_page (cks : list (list byte)) : Response :=
  {| status := 200; statusText := "OK";
     headers := [("content-type", "text/plain")];
     body := Some {| chunks := cks; failure := None |} |}.

Definition ex_versioned : Response :=
  {| status := 200; statusText := "OK";
     headers := [("ETag", quoted "v1"); ("content-type", "text/plain")];
     body := Some {| chunks := [bytes_of_string "hi"]; failure := None |} |}.

Definition ex_upstream_304 : Response :=
  {| status := 304; statusText := "Not Modified";
     headers := [("ETag", quoted "v1"); ("vary", "accept")];
     body := None |}.

Definition ex_no_content : Response :=
  {| status := 204; statusText := "No Content";
     headers := [("vary", "accept")];
     body := None |}.

Definition ex_broken : Response :=
  {| status := 200; statusText := "OK";
     headers := [("content-type", "text/plain")];
     body := Some {| chunks := [bytes_of_string "h"]; failure := Some "stream errored" |} |}.

Definition middleware := onRequest bytes_of_string webcrypto_digest.

End Middleware.

(** ** [src/components/AsciifyReact.tsx]: the selection handler *)
Module AsciifyReact.

(** *** The document tree *)

Definition NodeId := nat.

(** Text nodes and elements; a node is referred to by its identity. *)
Inductive Node :=
| Text (id : NodeId) (data : string)
| Element (id : NodeId) (childNodes : list Node).

Definition nodeId (n : Node) : NodeId :=
  match n with
  | Text i _ => i
  | Element i _ => i
  end.

(** The inclusive descendants of a node, in document order. *)
Fixpoint descendants (n : Node) : list Node :=
  match n with
  | Text _ _ => [n]
  | Element _ cs => n :: flat_map descendants cs
  end.

(** [n.contains(other)]: [other] is an inclusive descendant of [n];
    [false] for [null]. *)
Definition contains (n : Node) (other : option NodeId) : bool :=
  match other with
  | Some i => existsb (fun d => Nat.eqb (nodeId d) i) (descendants n)
  | None => false
  end.

(** The text nodes among the inclusive descendants, in document order,
    each with its data. *)
Fixpoint textNodes (n : Node) : list (NodeId * string) :=
  match n with
  | Text i d => [(i, d)]
  | Element _ cs => flat_map textNodes cs
  end.

(** The first non-empty chain that [f] finds among the children [l]. *)
Definition firstChain (f : Node -> list Node) : list Node -> list Node :=
  fix first (l : list Node) : list Node :=
    match l with
    | [] => []
    | c :: l' => match f c with
                 | [] => first l'
                 | chain => chain
                 end
    end.

(** The chain from the node [target] up to [n], [target]'s node first;
    empty when [n] has no such inclusive descendant. *)
Fixpoint inclusiveAncestors (n : Node) (target : NodeId) : list Node :=
  if Nat.eqb (nodeId n) target then [n]
  else match n with
       | Text _ _ => []
       | Element _ cs =>
           match firstChain (fun c => inclusiveAncestors c target) cs with
           | [] => []
           | chain => chain ++ [n]
           end
       end.

(** *** Ranges and selections *)

Record Range := {
  startContainer : NodeId;
  startOffset : nat;
  endContainer : NodeId;
  endOffset : nat
}.

(** [range.commonAncestorContainer] in the document [doc]: going up from
    the start container, the first node that is an inclusive ancestor of
    the end container. *)
Definition commonAncestorContainer (doc : Node) (r : Range) : option NodeId :=
  nodeId <$> List.find (fun a => contains a (Some (endContainer r)))
                       (inclusiveAncestors doc (startContainer r)).

Record Selection := {
  ranges : list Range;
  toString : string
}.

Definition rangeCount (s : Selection) : nat := length (ranges s).
Definition getRangeAt (s : Selection) (i : nat) : option Range := nth_error (ranges s) i.

(** *** The tree walker *)

(** What a call of [walker.nextNode()] gives while nodes remain: the next
    text node, or an exception. *)
Inductive WalkStep :=
| Next (textNode : NodeId * string)
| Raise (error : string).

Definition TreeWalker := list WalkStep.

(** The text nodes below [root], in document order; [root] itself is
    not among them. *)
Definition textNodesBelow (root : Node) : list (NodeId * string) :=
  match root with
  | Text _ _ => []
  | Element _ cs => flat_map textNodes cs
  end.

(** [document.createTreeWalker(root, NodeFilter.SHOW_TEXT, null)]: its
    [nextNode()] gives the text nodes below [root], one after the other. *)
Definition createTreeWalker (root : Node) : TreeWalker :=
  map Next (textNodesBelow root).

(** *** The handler *)

Inductive Completion (A : Type) :=
| Return (a : A)
| Throw (error : string).
Arguments Return {A} a.
Arguments Throw {A} error.

(** The [while] loop over the walker, lines 91 to 103. *)
Fixpoint walk (w : TreeWalker) (range : Range)
              (startOff endOff currentOffset : nat) : Completion (nat * nat) :=
  match w with
  | [] => Return (startOff, endOff)
  | Raise error :: _ => Throw error
  | Next (textNode, textContent) :: w' =>
      let nodeLength := String.length textContent in
      let startOff := if Nat.eqb textNode (startContainer range)
                      then currentOffset + startOffset range else startOff in
      if Nat.eqb textNode (endContainer range)
      then Return (startOff, currentOffset + endOffset range)
      else walk w' range startOff endOff (currentOffset + nodeLength)
  end.

(** The [for] loop that adds the indices, lines 106 to 112. *)
Equations addIndices (i endOff contentLength : nat) (newSelectedChars : gset nat)
  : gset nat by wf (contentLength - i) lt :=
  addIndices i endOff contentLength acc with inspect ((i <? endOff) && (i <? contentLength)) := {
    | exist _ true H := addIndices (i + 1) endOff contentLength (acc ∪ {[ i ]});
    | exist _ false _ := acc }.
Next Obligation.
  apply andb_prop in H as [_ H]. apply Nat.ltb_lt in H. lia.
Qed.

Section Platform.

(** The walker the platform hands out for a root. *)
Variable platformTreeWalker : Node -> TreeWalker.

(** The body of the scheduled callback, lines 61 to 119: the set handed
    to [setSelectedChars], and what went to [console.warn]. *)
Definition computeSelectedIndices (doc : Node) (root : option Node)
    (selection : option Selection) (contentLength : nat)
  : gset nat * list string :=
  let newSelectedChars : gset nat := ∅ in
  match selection with
  | Some sel =>
      if (0 <? rangeCount sel) && (0 <? String.length (toString sel)) then
        match getRangeAt sel 0, root with
        | Some range, Some container =>
            if contains container (commonAncestorContainer doc range) then
              match walk (platformTreeWalker container) range 0 0 0 with
              | Return (startOff, endOff) =>
                  (addIndices startOff endOff contentLength newSelectedChars, [])
              | Throw error =>
                  (newSelectedChars, ["Selection calculation failed: " +:+ error])
              end
            else (newSelectedChars, [])
        | _, _ => (newSelectedChars, [])
        end
      else (newSelectedChars, [])
  | None => (newSelectedChars, [])
  end.

(** The page around the handler: the document, the container the ref
    holds, what [window.getSelection()] gives, the content, and the two
    things the handler writes, the component's selected indices and the
    console. *)
Record Page := {
  document : Node;
  containerRef : option Node;
  selection : option Selection;
  content : string;
  selectedChars : gset nat;
  console : list string
}.

(** [handleSelectionChange], its callback run as the timeout of 0 expires:
    without a container nothing is scheduled; otherwise the computed set
    replaces the selected indices. *)
Definition handleSelectionChange (p : Page) : Page :=
  match containerRef p with
  | None => p
  | Some _ =>
      let result := computeSelectedIndices (document p) (containerRef p) (selection p)
                                           (String.length (content p)) in
      {| document := document p;
         containerRef := containerRef p;
         selection := selection p;
         content := content p;
         selectedChars := fst result;
         console := console p ++ snd result |}
  end.

End Platform.

(** *** The vocabulary of the statements *)

(** The identities of a node and of all that is below it. *)
Definition ids (n : Node) : list NodeId := map nodeId (descendants n).

(** The characters held by a run of text nodes: what the running offset
    has advanced by once the walk is past them. *)
Definition textLength (l : list (NodeId * string)) : nat :=
  fold_right (fun tn acc => String.length (snd tn) + acc) 0 l.

(** *** Concrete documents and selections *)

(** The container rendered for the content [AB], one span per character,
    in a page that also shows the font notice. *)
Definition ex_root : Node :=
  Element 1 [Element 2 [Text 3 "A"]; Element 4 [Text 5 "B"]].

Definition ex_doc : Node :=
  Element 0 [Element 8 [Text 9 "Loading fonts..."]; ex_root; Element 6 [Text 7 "footer"]].

Definition ex_select (r : Range) (text : string) : option Selection :=
  Some {| ranges := [r]; toString := text |}.

Definition ex_range_A : Range :=
  {| startContainer := 3; startOffset := 0; endContainer := 3; endOffset := 1 |}.

Definition ex_range_A' : Range :=
  {| startContainer := 3; startOffset := 0; endContainer := 5; endOffset := 0 |}.

Definition ex_range_AB : Range :=
  {| startContainer := 3; startOffset := 0; endContainer := 5; endOffset := 1 |}.

Definition ex_range_outside : Range :=
  {| startContainer := 9; startOffset := 0; endContainer := 3; endOffset := 1 |}.

Definition ex_failing_walker (root : Node) : TreeWalker :=
  [Next (3, "A"); Raise "node detached"].

End AsciifyReact.

(** ** [src/components/AsciifyReact.tsx]: the characters, the spans and the timer *)
Module Component.
Import AsciifyReact.

(** *** The characters, lines 43 to 49 *)

Record Character := {
  char : string;
  index : nat;
  isSelected : bool
}.

(** [content.split("")]: one string per character. *)
Definition split (content : string) : list string :=
  map (fun c => String c EmptyString) (list_ascii_of_string content).

Definition characters (content : string) (selectedChars : gset nat) : list Character :=
  imap (fun index char =>
          {| char := char; index := index;
             isSelected := bool_decide (index ∈ selectedChars) |})
       (split content).

(** *** The spans, lines 171 to 215 *)

Record Style := {
  fontFamily : string;
  WebkitTextFillColor : option string;
  textFillColor : option string;
  color : option string;
  display : string
}.

Definition defaultCharStyle (fontsLoaded : bool) : Style :=
  {| fontFamily := if fontsLoaded
                   then dquote +:+ "High Blockscript" +:+ dquote
                   else dquote +:+ "Low Blockscript" +:+ dquote;
     WebkitTextFillColor := None;
     textFillColor := None;
     color := None;
     display := "inline" |}.

Definition selectedCharStyle : Style :=
  {| fontFamily := dquote +:+ "Low Blockscript" +:+ dquote;
     WebkitTextFillColor := Some "#000 !important";
     textFillColor := Some "#000 !important";
     color := Some "#000 !important";
     display := "inline" |}.

Record Span := {
  key : nat;
  className : string;
  style : Style;
  data_font : string;
  children : string
}.

Definition renderChar (fontsLoaded : bool) (c : Character) : Span :=
  {| key := index c;
     className := "ascii-char";
     style := if isSelected c then selectedCharStyle else defaultCharStyle fontsLoaded;
     data_font := if isSelected c then "low-blockscript" else "high-blockscript";
     children := char c |}.

(** What the component returns: the notice while the fonts load, and the
    container with its spans. *)
Record View := {
  notice : option string;
  data_eid : string;
  spans : list Span
}.

Definition render (content transactionHash : string) (selectedChars : gset nat)
    (fontsLoaded : bool) : View :=
  {| notice := if negb fontsLoaded then Some "Loading fonts..." else None;
     data_eid := transactionHash;
     spans := map (renderChar fontsLoaded) (characters content selectedChars) |}.

(** The container as the document holds it once the view is mounted: a
    [div] with one [span] per entry, each with one text node; the
    identities are the platform's. *)
Definition mount (rootId : NodeId) (spanId textId : nat -> NodeId) (v : View) : Node :=
  Element rootId
    (imap (fun i sp => Element (spanId i) [Text (textId i) (children sp)]) (spans v)).

(** *** The font check, lines 131 to 141 *)

(** [checkFonts], given how the two [document.fonts.load] calls end
    ([None]: resolved; [Some error]: rejected): the value given to
    [setFontsLoaded] and what is logged. *)
Definition checkFonts (low high : option string) : bool * list string :=
  match low with
  | Some error => (true, ["Font loading error: " +:+ error])
  | None =>
      match high with
      | Some error => (true, ["Font loading error: " +:+ error])
      | None => (true, ["Fonts loaded successfully"])
      end
  end.

(** *** The timer, lines 51 to 60, 120 to 122 and 145 to 152 *)

(** The mounted component with the platform's timers: timer handles are
    positive integers. *)
Record Mounted := {
  page : Page;
  debounceTimeoutRef : option positive;
  pendingTimers : list positive;
  nextTimer : positive;
  listening : bool;
  callbackRuns : nat
}.

Definition clearTimeout (id : positive) (pending : list positive) : list positive :=
  List.filter (fun t => negb (Pos.eqb t id)) pending.

Inductive Event :=
| SelectionChange (now : option Selection)
| TimerFires (id : positive)
| Cleanup.

Section Platform.

Variable platformTreeWalker : Node -> TreeWalker.

(** The callback given to [setTimeout], lines 60 to 121. *)
Definition callback (p : Page) : Page :=
  let result := computeSelectedIndices platformTreeWalker (document p) (containerRef p)
                                       (selection p) (String.length (content p)) in
  {| document := document p;
     containerRef := containerRef p;
     selection := selection p;
     content := content p;
     selectedChars := fst result;
     console := console p ++ snd result |}.

(** [handleSelectionChange] up to the scheduling: the pending timer is
    cleared and a new one is set. *)
Definition schedule (m : Mounted) : Mounted :=
  match containerRef (page m) with
  | None => m
  | Some _ =>
      let pending := match debounceTimeoutRef m with
                     | Some id => clearTimeout id (pendingTimers m)
                     | None => pendingTimers m
                     end in
      {| page := page m;
         debounceTimeoutRef := Some (nextTimer m);
         pendingTimers := pending ++ [nextTimer m];
         nextTimer := Pos.succ (nextTimer m);
         listening := listening m;
         callbackRuns := callbackRuns m |}
  end.

Definition withSelection (p : Page) (now : option Selection) : Page :=
  {| document := document p;
     containerRef := containerRef p;
     selection := now;
     content := content p;
     selectedChars := selectedChars p;
     console := console p |}.

(** One turn of the event loop: the selection changes and the event is
    dispatched, a timer fires, or the effect is cleaned up. *)
Definition step (m : Mounted) (e : Event) : Mounted :=
  match e with
  | SelectionChange now =>
      let m' := {| page := withSelection (page m) now;
                   debounceTimeoutRef := debounceTimeoutRef m;
                   pendingTimers := pendingTimers m;
                   nextTimer := nextTimer m;
                   listening := listening m;
                   callbackRuns := callbackRuns m |} in
      if listening m then schedule m' else m'
  | TimerFires id =>
      if existsb (Pos.eqb id) (pendingTimers m) then
        {| page := callback (page m);
           debounceTimeoutRef := debounceTimeoutRef m;
           pendingTimers := clearTimeout id (pendingTimers m);
           nextTimer := nextTimer m;
           listening := listening m;
           callbackRuns := S (callbackRuns m) |}
      else m
  | Cleanup =>
      {| page := page m;
         debounceTimeoutRef := debounceTimeoutRef m;
         pendingTimers := match debounceTimeoutRef m with
                          | Some id => clearTimeout id (pendingTimers m)
                          | None => pendingTimers m
                          end;
         nextTimer := nextTimer m;
         listening := false;
         callbackRuns := callbackRuns m |}
  end.

Definition steps (m : Mounted) (events : list Event) : Mounted :=
  fold_left step events m.

End Platform.

(** The component as the effect leaves it after mounting. *)
Definition mounted (p : Page) (firstTimer : positive) : Mounted :=
  {| page := p;
     debounceTimeoutRef := None;
     pendingTimers := [];
     nextTimer := firstTimer;
     listening := true;
     callbackRuns := 0 |}.

(** *** The vocabulary of the statements *)

(** No timer is pending, or the one the ref holds. *)
Definition at_most_the_ref (m : Mounted) : Prop :=
  pendingTimers m = []
  \/ exists id, debounceTimeoutRef m = Some id /\ pendingTimers m = [id].

(** What a run of selection changes leaves as it was. *)
Definition same_but_selection (m m' : Mounted) : Prop :=
  listening m' = listening m
  /\ callbackRuns m' = callbackRuns m
  /\ document (page m') = document (page m)
  /\ containerRef (page m') = containerRef (page m)
  /\ content (page m') = content (page m)
  /\ selectedChars (page m') = selectedChars (page m)
  /\ console (page m') = console (page m).

(** *** A concrete page *)

Definition ex_spanId (i : nat) : NodeId := 2 + 2 * i.
Definition ex_textId (i : nat) : NodeId := 3 + 2 * i.

Definition ex_mounted_page : Page :=
  {| document := ex_doc; containerRef := Some ex_root; selection := None;
     content := "AB"; selectedChars := ∅; console := [] |}.

(** From the text of [A] to the end of the container, given as a
    position in the container element. *)
Definition ex_range_to_element : Range :=
  {| startContainer := 3; startOffset := 0; endContainer := 1; endOffset := 2 |}.

(** From a position in the container element, before its second span,
    to the end of the text of [B]. *)
Definition ex_range_from_element : Range :=
  {| startContainer := 1; startOffset := 1; endContainer := 5; endOffset := 1 |}.

End Component.

(** ** A proxied response with a status outside 200..599 *)

Definition ex_proxied : Middleware.Response :=
  {| Middleware.status := 999; Middleware.statusText := "Request denied";
     Middleware.headers := [("content-type", "text/html")];
     Middleware.body := Some {| Middleware.chunks := [Middleware.bytes_of_string "no"];
                                Middleware.failure := None |} |}.

(** ** Reading hexadecimal back *)

Definition unhex_digit (c : ascii) : N :=
  let n := N_of_ascii c in
  if (n <? 58)%N then (n - 48)%N else (n - 87)%N.

(** The byte that two hexadecimal digits write. *)
Definition unhex_pair (s : string) : byte :=
  match s with
  | String a (String b _) => SHA256.byte_of_N (16 * unhex_digit a + unhex_digit b)
  | _ => x00%byte
  end.

(** * Properties of the middleware *)

Lemma be_bytes_length count x : length (SHA256.be_bytes count x) = count.
Proof. unfold SHA256.be_bytes. now rewrite length_map, length_rev, length_seq. Qed.

Lemma sha256_hash_length msg : length (SHA256.hash msg) = 32.
Proof. unfold SHA256.hash. now rewrite !length_app, !be_bytes_length. Qed.

Section HexFacts.

Lemma hex_pair_shape (b : byte) :
  String.length (hex_pair b) = 2 /\ string_forall lower_hex (hex_pair b) = true.
Proof. destruct b; vm_compute; split; reflexivity. Qed.

Lemma append_cons c (s t : string) : String c s +:+ t = String c (s +:+ t).
Proof. reflexivity. Qed.

Lemma string_length_append (s t : string) :
  String.length (s +:+ t) = String.length s + String.length t.
Proof.
  induction s as [|c s IH]; [reflexivity |].
  rewrite append_cons. simpl. now rewrite IH.
Qed.

Lemma string_append_empty (s : string) : s +:+ EmptyString = s.
Proof.
  induction s as [|c s IH]; [reflexivity |].
  now rewrite append_cons, IH.
Qed.

Lemma string_forall_append p (s t : string) :
  string_forall p (s +:+ t) = string_forall p s && string_forall p t.
Proof.
  induction s as [|c s IH]; [reflexivity |].
  rewrite append_cons. simpl. now rewrite IH, andb_assoc.
Qed.

Lemma hex_concat_shape (bs : list byte) :
  String.length (String.concat EmptyString (map hex_pair bs)) = 2 * length bs
  /\ string_forall lower_hex (String.concat EmptyString (map hex_pair bs)) = true.
Proof.
  induction bs as [|b bs [IHl IHf]]; [split; reflexivity |].
  destruct (hex_pair_shape b) as [Hl Hf].
  assert (E : String.concat EmptyString (map hex_pair (b :: bs))
              = hex_pair b +:+ String.concat EmptyString (map hex_pair bs)).
  { simpl. destruct (map hex_pair bs) eqn:Em; simpl; [|reflexivity].
    symmetry. apply string_append_empty. }
  rewrite E, string_length_append, string_forall_append, Hl, Hf, IHl, IHf.
  split; [simpl; lia | reflexivity].
Qed.

End HexFacts.

Section HeadersFacts.
Import Middleware.

Lemma name_eqb_refl n : name_eqb n n = true.
Proof. apply String.eqb_refl. Qed.

Lemma name_eqb_sym a b : name_eqb a b = name_eqb b a.
Proof. apply String.eqb_sym. Qed.

Lemma name_eqb_congr a b c : name_eqb a b = true -> name_eqb a c = name_eqb b c.
Proof. unfold name_eqb. intros H%String.eqb_eq. now rewrite H. Qed.

Lemma named_others_same h n n' :
  name_eqb n n' = true -> named n' (others n h) = [].
Proof.
  intros Hn. unfold named, others.
  induction h as [|[k x] h IH]; simpl; [reflexivity |].
  destruct (name_eqb k n) eqn:E; simpl; [exact IH |].
  rewrite name_eqb_sym, <- (name_eqb_congr _ _ _ Hn), name_eqb_sym, E. exact IH.
Qed.

Lemma named_others_other h n n' :
  name_eqb n n' = false -> named n' (others n h) = named n' h.
Proof.
  intros Hn. unfold named, others.
  induction h as [|[k x] h IH]; simpl; [reflexivity |].
  destruct (name_eqb k n) eqn:E; simpl.
  - rewrite (name_eqb_congr _ _ _ E), Hn. exact IH.
  - destruct (name_eqb k n'); now rewrite IH.
Qed.

Lemma named_set_same h n v n' :
  name_eqb n n' = true -> exists k, named n' (Headers_set h n v) = [(k, v)].
Proof.
  intros Hn. induction h as [|[k x] h [k' IH]]; simpl.
  - exists n. unfold named. simpl. now rewrite Hn.
  - destruct (name_eqb k n) eqn:E.
    + exists k. unfold named. simpl.
      rewrite (name_eqb_congr _ _ _ E), Hn.
      f_equal. now apply named_others_same.
    + exists k'. unfold named in *. simpl.
      rewrite name_eqb_sym, <- (name_eqb_congr _ _ _ Hn), name_eqb_sym, E. exact IH.
Qed.

Lemma named_set_other h n v n' :
  name_eqb n n' = false -> named n' (Headers_set h n v) = named n' h.
Proof.
  intros Hn. induction h as [|[k x] h IH]; simpl.
  - unfold named. simpl. now rewrite Hn.
  - destruct (name_eqb k n) eqn:E.
    + unfold named. simpl. rewrite (name_eqb_congr _ _ _ E), Hn.
      now apply named_others_other.
    + unfold named in *. simpl. destruct (name_eqb k n'); now rewrite IH.
Qed.

Lemma others_set h n v : others n (Headers_set h n v) = others n h.
Proof.
  induction h as [|[k x] h IH]; simpl.
  - unfold others. simpl. now rewrite name_eqb_refl.
  - destruct (name_eqb k n) eqn:E; unfold others in *; simpl; rewrite E; simpl.
    + clear. induction h as [|[k' x'] h IH]; simpl; [reflexivity |].
      destruct (name_eqb k' n) eqn:E'; simpl; [exact IH |].
      rewrite E'. simpl. now rewrite IH.
    + now rewrite IH.
Qed.

Lemma Headers_get_named h name :
  Headers_get h name =
  match named name h with
  | [] => None
  | kvs => Some (String.concat ", " (map snd kvs))
  end.
Proof. reflexivity. Qed.

Lemma Headers_get_set_same h n v n' :
  name_eqb n n' = true -> Headers_get (Headers_set h n v) n' = Some v.
Proof.
  intros Hn. rewrite Headers_get_named.
  destruct (named_set_same h n v n' Hn) as [k ->]. reflexivity.
Qed.

Lemma Headers_get_set_other h n v n' :
  name_eqb n n' = false -> Headers_get (Headers_set h n v) n' = Headers_get h n'.
Proof. intros Hn. now rewrite !Headers_get_named, named_set_other. Qed.

End HeadersFacts.

Section MiddlewareFacts.
Import Middleware.
Local Open Scope async_scope.

Variable enc : string -> list byte.

Lemma narrow_Some v s : narrow v = Some s <-> v = Some s /\ s <> EmptyString.
Proof.
  unfold narrow, truthy. destruct v as [x|]; [|split; [discriminate | intros [? _]; discriminate]].
  destruct (String.eqb_spec x EmptyString) as [->|Hx]; simpl; split.
  - discriminate.
  - intros [[= <-] H]. now destruct H.
  - intros [= ->]. now split.
  - now intros [-> _].
Qed.

Lemma strict_eq_true a b : strict_eq a b = true <-> a = b.
Proof.
  destruct a as [x|], b as [y|]; simpl; try (split; [discriminate | congruence]); [|easy].
  rewrite String.eqb_eq. split; congruence.
Qed.

Lemma match_test inm v :
  v <> EmptyString ->
  truthy inm && strict_eq inm (Some v) = bool_decide (inm = Some v).
Proof.
  intros Hv. destruct (decide (inm = Some v)) as [->|Hne].
  - rewrite bool_decide_eq_true_2 by reflexivity. simpl.
    rewrite String.eqb_refl. destruct (String.eqb_spec v EmptyString); [contradiction | reflexivity].
  - rewrite bool_decide_eq_false_2 by assumption.
    destruct (strict_eq inm (Some v)) eqn:E; [|apply andb_false_r].
    apply strict_eq_true in E. contradiction.
Qed.

Lemma validator_nonempty buf : validator buf <> EmptyString.
Proof. unfold validator, dquote. rewrite append_cons. discriminate. Qed.

Lemma digest_webcrypto buf t :
  digest enc webcrypto_digest (inr buf) t =
  (Return (String.concat EmptyString (map hex_pair (SHA256.hash buf))), t ++ [Hashed buf]).
Proof. reflexivity. Qed.

Lemma computeEtag_webcrypto r s t :
  body r = Some s -> failure s = None ->
  computeEtag enc webcrypto_digest r t =
  (Return (concat (chunks s), validator (concat (chunks s))),
   t ++ [Drained (concat (chunks s)); Hashed (concat (chunks s))]).
Proof.
  intros Hb Hf. unfold computeEtag, clone, arrayBuffer, bind. rewrite Hb, Hf.
  unfold emit, ret. rewrite digest_webcrypto, <- app_assoc. reflexivity.
Qed.

Lemma computeEtag_drain_fails sd r s reason t :
  body r = Some s -> failure s = Some reason ->
  computeEtag enc sd r t = (Throw (Rejected reason), t).
Proof.
  intros Hb Hf. unfold computeEtag, clone, arrayBuffer, bind. now rewrite Hb, Hf.
Qed.

Lemma computeEtag_digest_fails sd r s e t :
  body r = Some s -> failure s = None -> sd (concat (chunks s)) = Throw e ->
  computeEtag enc sd r t =
  (Throw e, t ++ [Drained (concat (chunks s)); Hashed (concat (chunks s))]).
Proof.
  intros Hb Hf Hd. unfold computeEtag, clone, arrayBuffer, bind, digest, bind, emit, await, ret.
  rewrite Hb, Hf, Hd, <- app_assoc. reflexivity.
Qed.

Lemma tagged_headers h etag :
  let hs := Headers_set (Headers_set h "ETag" etag) "Cache-Control" long_lived in
  Headers_get hs "etag" = Some etag
  /\ Headers_get hs "cache-control" = Some long_lived
  /\ (forall name, name_eqb "ETag" name = false -> name_eqb "Cache-Control" name = false ->
        named name hs = named name h).
Proof.
  simpl. split; [|split].
  - rewrite Headers_get_set_other by reflexivity. now apply Headers_get_set_same.
  - now apply Headers_get_set_same.
  - intros name H1 H2. now rewrite !named_set_other.
Qed.

End MiddlewareFacts.

Section MiddlewareTheorems.
Import Middleware.
Local Open Scope async_scope.

Variable enc : string -> list byte.

Lemma computeEtag_same_bytes sd r1 r2 s1 s2 t :
  body r1 = Some s1 -> body r2 = Some s2 ->
  failure s1 = None -> failure s2 = None ->
  concat (chunks s1) = concat (chunks s2) ->
  computeEtag enc sd r1 t = computeEtag enc sd r2 t.
Proof.
  intros Hb1 Hb2 Hf1 Hf2 Hc.
  unfold computeEtag, clone, arrayBuffer, bind.
  now rewrite Hb1, Hb2, Hf1, Hf2, Hc.
Qed.

Lemma computed_path_etag sd ctx r s out t :
  producer_validator r = None -> body r = Some s ->
  run (onRequest enc sd ctx (Return r)) = (Return out, t) ->
  exists buf etag t0,
    computeEtag enc sd r [] = (Return (buf, etag), t0)
    /\ Headers_get (headers out) "etag" = Some etag.
Proof.
  unfold producer_validator, run, onRequest, bind, await. intros -> ->.
  destruct (computeEtag enc sd r []) as [[[buf etag]|e] t0]; [|discriminate].
  simpl fst; simpl snd. intros H. exists buf, etag, t0. split; [reflexivity |].
  destruct (truthy _ && strict_eq _ _); unfold new_Response in H; simpl in H.
  - injection H as <- _. apply tagged_headers.
  - destruct (negb _); [discriminate |].
    destruct (null_body_status _); [discriminate |].
    injection H as <- _. apply tagged_headers.
Qed.

(** C2. Two response bodies made of the same bytes, however they were
    chunked, get the same validator: draining and hashing them gives the
    same completion and the same trace, and whatever the middleware
    returns for them carries the same [ETag]. *)
Theorem validator_deterministic sd r1 r2 s1 s2 :
  body r1 = Some s1 -> body r2 = Some s2 ->
  failure s1 = None -> failure s2 = None ->
  concat (chunks s1) = concat (chunks s2) ->
  run (computeEtag enc sd r1) = run (computeEtag enc sd r2)
  /\ (forall ctx1 ctx2 out1 out2 t1 t2,
        producer_validator r1 = None -> producer_validator r2 = None ->
        run (onRequest enc sd ctx1 (Return r1)) = (Return out1, t1) ->
        run (onRequest enc sd ctx2 (Return r2)) = (Return out2, t2) ->
        Headers_get (headers out1) "etag" = Headers_get (headers out2) "etag").
Proof.
  intros Hb1 Hb2 Hf1 Hf2 Hc.
  pose proof (computeEtag_same_bytes sd r1 r2 s1 s2 [] Hb1 Hb2 Hf1 Hf2 Hc) as E.
  split; [exact E |].
  intros ctx1 ctx2 out1 out2 t1 t2 Hp1 Hp2 H1 H2.
  destruct (computed_path_etag sd ctx1 r1 s1 out1 t1 Hp1 Hb1 H1) as (b1 & e1 & u1 & C1 & ->).
  destruct (computed_path_etag sd ctx2 r2 s2 out2 t2 Hp2 Hb2 H2) as (b2 & e2 & u2 & C2 & ->).
  rewrite E, C2 in C1. congruence.
Qed.

Lemma producer_path sd ctx response v :
  producer_validator response = Some v ->
  run (onRequest enc sd ctx (Return response)) =
    (Return (if bool_decide (if_none_match ctx = Some v)
             then not_modified [("ETag", v); ("Cache-Control", long_lived)]
             else response), []).
Proof.
  intros Hv. pose proof Hv as [_ Hne]%narrow_Some.
  unfold producer_validator in Hv.
  unfold run, onRequest, bind, await. rewrite Hv.
  fold (if_none_match ctx). rewrite (match_test _ _ Hne).
  destruct (bool_decide _); reflexivity.
Qed.

(** C3. A response that carries a validator of its producer: when the
    request's [If-None-Match] equals it, the middleware answers 304 with
    no body and that validator as [ETag]; otherwise it hands the
    producer's response on as it is.  Nothing is drained or hashed on
    either way. *)
Theorem producer_validator_preferred sd ctx response v :
  producer_validator response = Some v ->
  run (onRequest enc sd ctx (Return response)) =
    (Return (if bool_decide (if_none_match ctx = Some v)
             then not_modified [("ETag", v); ("Cache-Control", long_lived)]
             else response), [])
  /\ Headers_get [("ETag", v); ("Cache-Control", long_lived)] "etag" = Some v.
Proof.
  intros Hv. split; [now apply producer_path | reflexivity].
Qed.


(** C5, as amended. When the request's [If-None-Match] is the validator,
    the outcome has status 304, no body, [ETag] equal to the validator and
    [Cache-Control] equal to the long-lived directive.  With a validator of
    the producer these two are its only headers; with a computed
    validator they are set on a copy of the original headers, and the
    headers of other names stay. *)
Theorem not_modified_outcome ctx response v :
  if_none_match ctx = Some v ->
  (producer_validator response = Some v ->
     run (onRequest enc webcrypto_digest ctx (Return response))
       = (Return (not_modified [("ETag", v); ("Cache-Control", long_lived)]), []))
  /\ (forall stream,
        producer_validator response = None ->
        body response = Some stream -> failure stream = None ->
        v = validator (concat (chunks stream)) ->
        let hs := Headers_set (Headers_set (headers response) "ETag" v)
                              "Cache-Control" long_lived in
        run (onRequest enc webcrypto_digest ctx (Return response))
          = (Return (not_modified hs),
             [Drained (concat (chunks stream)); Hashed (concat (chunks stream))])
        /\ Headers_get hs "etag" = Some v
        /\ Headers_get hs "cache-control" = Some long_lived
        /\ (forall name, name_eqb "ETag" name = false -> name_eqb "Cache-Control" name = false ->
              named name hs = named name (headers response))).
Proof.
  intros Hinm. split.
  - intros Hv.
    rewrite (producer_path webcrypto_digest ctx response v Hv).
    now rewrite bool_decide_eq_true_2.
  - intros stream Hp Hb Hf -> hs. split; [|apply tagged_headers].
    unfold producer_validator in Hp.
    unfold run, onRequest, bind, await. rewrite Hp, Hb.
    rewrite (computeEtag_webcrypto enc response stream [] Hb Hf).
    cbn [fst snd]. fold (if_none_match ctx).
    rewrite (match_test _ _ (validator_nonempty _)), bool_decide_eq_true_2 by assumption.
    reflexivity.
Qed.

(** C6, as amended. A response without a body is handed on as it is,
    with nothing drained or hashed, unless it carries a validator of its
    producer that the request's [If-None-Match] equals. *)
Theorem bodyless_passthrough sd ctx response :
  body response = None ->
  (forall v, producer_validator response = Some v -> if_none_match ctx <> Some v) ->
  run (onRequest enc sd ctx (Return response)) = (Return response, []).
Proof.
  intros Hb Hne.
  destruct (producer_validator response) as [v|] eqn:Hp.
  - rewrite (producer_path sd ctx response v Hp).
    now rewrite bool_decide_eq_false_2 by (apply Hne; reflexivity).
  - unfold producer_validator in Hp.
    unfold run, onRequest, bind, await. now rewrite Hp, Hb.
Qed.

(** C9, as amended. When draining the body fails, or the hash primitive
    rejects, the middleware does not recover: the failure is the
    completion of the request, and no response is returned. *)
Theorem hash_failure_propagates sd ctx response stream e :
  producer_validator response = None ->
  body response = Some stream ->
  (exists reason, failure stream = Some reason /\ e = Rejected reason)
  \/ (failure stream = None /\ sd (concat (chunks stream)) = Throw e) ->
  fst (run (onRequest enc sd ctx (Return response))) = Throw e.
Proof.
  intros Hp Hb Hfail. unfold producer_validator in Hp.
  unfold run, onRequest, bind, await. rewrite Hp, Hb.
  destruct Hfail as [(reason & Hf & ->) | [Hf Hd]].
  - now rewrite (computeEtag_drain_fails enc sd response stream reason [] Hb Hf).
  - now rewrite (computeEtag_digest_fails enc sd response stream e [] Hb Hf Hd).
Qed.

(** C10. For every body that drains, the validator the middleware
    computes is a double quote, 64 lowercase hexadecimal characters, two
    for each of the 32 bytes of the SHA-256 digest, and a double quote:
    66 characters. *)
Theorem validator_shape st stt hs cks :
  let response := {| status := st; statusText := stt; headers := hs;
                     body := Some {| chunks := cks; failure := None |} |} in
  let digest_bytes := SHA256.hash (concat cks) in
  exists hex,
    run (computeEtag enc webcrypto_digest response)
      = (Return (concat cks, dquote +:+ hex +:+ dquote),
         [Drained (concat cks); Hashed (concat cks)])
    /\ hex = String.concat EmptyString (map hex_pair digest_bytes)
    /\ length digest_bytes = 32
    /\ (forall b, String.length (hex_pair b) = 2)
    /\ String.length hex = 64
    /\ string_forall lower_hex hex = true
    /\ String.length (dquote +:+ hex +:+ dquote) = 66.
Proof.
  intros response digest_bytes.
  exists (String.concat EmptyString (map hex_pair digest_bytes)).
  destruct (hex_concat_shape digest_bytes) as [Hl Hf].
  assert (H32 : length digest_bytes = 32) by apply sha256_hash_length.
  rewrite H32 in Hl.
  split.
  { unfold run.
    now rewrite (computeEtag_webcrypto enc response _ [] eq_refl eq_refl). }
  split; [reflexivity |].
  split; [exact H32 |].
  split; [intros b; apply hex_pair_shape |].
  split; [exact Hl |].
  split; [exact Hf |].
  rewrite !string_length_append, Hl. reflexivity.
Qed.

End MiddlewareTheorems.

(** ** The middleware on concrete exchanges *)

Section MiddlewareExamples.
Import Middleware.

Example sha256_abc :
  fst (run (digest bytes_of_string webcrypto_digest (inl "abc")))
  = Return "ba7816bf8f01cfea414140de5dae2223b00361a396177a9cb410ff61f20015ad".
Proof. vm_compute. reflexivity. Qed.

Example sha256_empty :
  validator [] = quoted "e3b0c44298fc1c149afbf4c8996fb92427ae41e4649b934ca495991b7852b855".
Proof. vm_compute. reflexivity. Qed.

Lemma validator_deterministic_witness :
  run (computeEtag bytes_of_string webcrypto_digest
         (ex_page [bytes_of_string "h"; bytes_of_string "i"]))
  = run (computeEtag bytes_of_string webcrypto_digest (ex_page [bytes_of_string "hi"])).
Proof.
  exact (proj1 (validator_deterministic bytes_of_string webcrypto_digest
                  (ex_page [bytes_of_string "h"; bytes_of_string "i"])
                  (ex_page [bytes_of_string "hi"]) _ _
                  eq_refl eq_refl eq_refl eq_refl eq_refl)).
Defined.

Lemma producer_validator_preferred_witness :
  run (middleware (ex_context (Some (quoted "v1"))) (Return ex_versioned))
  = (Return (not_modified [("ETag", quoted "v1"); ("Cache-Control", long_lived)]), []).
Proof.
  exact (proj1 (producer_validator_preferred bytes_of_string webcrypto_digest
                  (ex_context (Some (quoted "v1"))) ex_versioned (quoted "v1") eq_refl)).
Defined.



(** C5 as stated fails: on the computed way the 304 keeps the headers of
    the original response next to [ETag] and [Cache-Control]. *)
Lemma computed_not_modified_keeps_headers :
  let v := validator (bytes_of_string "hi") in
  exists out,
    fst (run (middleware (ex_context (Some v)) (Return (ex_page [bytes_of_string "hi"]))))
      = Return out
    /\ status out = 304 /\ body out = None
    /\ headers out = [("content-type", "text/plain"); ("ETag", v); ("Cache-Control", long_lived)]
    /\ headers out <> [("ETag", v); ("Cache-Control", long_lived)].
Proof.
  eexists. split; [vm_compute; reflexivity |].
  cbn [status body headers]. repeat split; discriminate.
Qed.

Lemma not_modified_outcome_witness :
  let v := validator (bytes_of_string "hi") in
  exists hs,
    fst (run (middleware (ex_context (Some v)) (Return (ex_page [bytes_of_string "hi"]))))
      = Return (not_modified hs)
    /\ Headers_get hs "etag" = Some v
    /\ Headers_get hs "cache-control" = Some long_lived.
Proof.
  intros v.
  destruct (proj2 (not_modified_outcome bytes_of_string (ex_context (Some v))
                     (ex_page [bytes_of_string "hi"]) v eq_refl)
              _ eq_refl eq_refl eq_refl eq_refl)
    as (Hrun & Het & Hcc & _).
  eexists. unfold middleware. rewrite Hrun. repeat split; assumption.
Defined.

(** C6 as stated fails: an upstream 304 without a body whose validator the
    request repeats is answered with a new 304, which has a
    [Cache-Control] the original had not and has lost its [vary]. *)
Lemma bodyless_matching_validator_rewritten :
  body ex_upstream_304 = None
  /\ exists out,
       run (middleware (ex_context (Some (quoted "v1"))) (Return ex_upstream_304))
         = (Return out, [])
       /\ out <> ex_upstream_304
       /\ Headers_get (headers ex_upstream_304) "cache-control" = None
       /\ Headers_get (headers out) "cache-control" = Some long_lived
       /\ Headers_get (headers ex_upstream_304) "vary" = Some "accept"
       /\ Headers_get (headers out) "vary" = None.
Proof.
  split; [reflexivity |]. eexists. split; [vm_compute; reflexivity |].
  repeat split; discriminate.
Qed.

Lemma bodyless_passthrough_witness :
  run (middleware (ex_context (Some (quoted "v1"))) (Return ex_no_content))
    = (Return ex_no_content, [])
  /\ run (middleware (ex_context (Some (quoted "v2"))) (Return ex_upstream_304))
    = (Return ex_upstream_304, []).
Proof.
  split.
  - apply (bodyless_passthrough bytes_of_string webcrypto_digest
             (ex_context (Some (quoted "v1"))) ex_no_content).
    + reflexivity.
    + intros v Hv. vm_compute in Hv. discriminate.
  - apply (bodyless_passthrough bytes_of_string webcrypto_digest
             (ex_context (Some (quoted "v2"))) ex_upstream_304).
    + reflexivity.
    + intros v Hv. vm_compute in Hv. injection Hv as <-. vm_compute. discriminate.
Defined.

(** C9 as stated fails: a body stream that errors while it is drained
    makes the request reject; the original response is not returned. *)
Lemma drain_failure_not_recovered :
  fst (run (middleware (ex_context None) (Return ex_broken)))
    = Throw (Rejected "stream errored")
  /\ fst (run (middleware (ex_context None) (Return ex_broken))) <> Return ex_broken.
Proof. split; [reflexivity | discriminate]. Qed.

Lemma hash_failure_propagates_witness :
  fst (run (middleware (ex_context None) (Return ex_broken)))
    = Throw (Rejected "stream errored")
  /\ fst (run (onRequest bytes_of_string (fun _ => Throw (Rejected "no subtle crypto"))
                 (ex_context None) (Return (ex_page [bytes_of_string "hi"]))))
    = Throw (Rejected "no subtle crypto").
Proof.
  split.
  - apply (hash_failure_propagates bytes_of_string webcrypto_digest
             (ex_context None) ex_broken _ _ eq_refl eq_refl).
    left. eexists. split; reflexivity.
  - apply (hash_failure_propagates bytes_of_string _
             (ex_context None) (ex_page [bytes_of_string "hi"]) _ _ eq_refl eq_refl).
    right. split; reflexivity.
Defined.

End MiddlewareExamples.

(** * Properties of the selection handler *)

Section SelectionExamples.
Import AsciifyReact.

Example select_A :
  computeSelectedIndices createTreeWalker ex_doc (Some ex_root) (ex_select ex_range_A "A") 2
  = ({[ 0 ]}, []).
Proof. vm_compute. reflexivity. Qed.

End SelectionExamples.

Section SelectionFacts.
Import AsciifyReact.

Lemma Node_ind' (P : Node -> Prop) :
  (forall i d, P (Text i d)) ->
  (forall i cs, Forall P cs -> P (Element i cs)) ->
  forall n, P n.
Proof.
  intros HT HE. fix IH 1. intros [i d | i cs]; [apply HT | apply HE].
  induction cs as [|c cs IHcs]; constructor; [apply IH | exact IHcs].
Qed.

Lemma elem_of_addIndices i endOff len (acc : gset nat) k :
  k ∈ addIndices i endOff len acc <-> k ∈ acc \/ (i <= k < endOff /\ k < len).
Proof.
  funelim (addIndices i endOff len acc); clear Heqcall.
  - match goal with IH : forall k, _ <-> _ |- _ => rewrite IH end.
    pose proof (andb_prop _ _ H) as [Hi%Nat.ltb_lt Hl%Nat.ltb_lt].
    rewrite elem_of_union, elem_of_singleton. split.
    + intros [[?| ->]|[? ?]]; [left; assumption | right; lia | right; lia].
    + intros [?|[? ?]]; [left; left; assumption |].
      destruct (decide (k = i)) as [->|]; [left; right; reflexivity | right; lia].
  - split; [intros ?; left; assumption |].
    intros [?|[[? ?] ?]]; [assumption |].
    match goal with
    | E : _ && _ = false |- _ =>
        pose proof (proj1 (andb_false_iff _ _) E) as [E'%Nat.ltb_ge | E'%Nat.ltb_ge]; lia
    end.
Qed.

Lemma lookup_fst_elem (l : list (NodeId * string)) j a b :
  l !! j = Some (a, b) -> a ∈ map fst l.
Proof.
  intros H. apply list_elem_of_In, (in_map fst l (a, b)), list_elem_of_In.
  eapply list_elem_of_lookup_2. exact H.
Qed.

Lemma walk_start_passed leaves :
  forall range so eo cur j edata rest,
    NoDup (map fst leaves) ->
    leaves !! j = Some (endContainer range, edata) ->
    startContainer range ∉ map fst (take (S j) leaves) ->
    walk (map Next (take (S j) leaves) ++ rest) range so eo cur
    = Return (so, cur + textLength (take j leaves) + endOffset range).
Proof.
  induction leaves as [|[id d] l IH]; intros range so eo cur j edata rest Hnd Hj Hs;
    [discriminate |].
  apply NoDup_cons in Hnd as [Hid Hnd].
  assert (Hids : Nat.eqb id (startContainer range) = false).
  { apply Nat.eqb_neq. intros ->. apply Hs. simpl. left. }
  rewrite firstn_cons. simpl. rewrite Hids. destruct j as [|j].
  - injection Hj as -> _. rewrite Nat.eqb_refl. simpl. f_equal. f_equal. lia.
  - simpl in Hj.
    assert (Hide : Nat.eqb id (endContainer range) = false).
    { apply Nat.eqb_neq. intros ->. apply Hid. eapply lookup_fst_elem, Hj. }
    rewrite Hide. rewrite (IH range so eo _ j edata rest Hnd Hj).
    + f_equal. f_equal. simpl. lia.
    + intros Hin. apply Hs. simpl. right. exact Hin.
Qed.

(** The walk over the text nodes up to the end container, whatever the
    walker would give after it. *)
Lemma walk_offsets leaves :
  forall range so eo cur i j sdata edata rest,
    NoDup (map fst leaves) ->
    leaves !! i = Some (startContainer range, sdata) ->
    leaves !! j = Some (endContainer range, edata) ->
    i <= j ->
    walk (map Next (take (S j) leaves) ++ rest) range so eo cur
    = Return (cur + textLength (take i leaves) + startOffset range,
              cur + textLength (take j leaves) + endOffset range).
Proof.
  induction leaves as [|[id d] l IH];
    intros range so eo cur i j sdata edata rest Hnd Hi Hj Hij; [discriminate |].
  pose proof Hnd as [Hid Hnd']%NoDup_cons.
  rewrite firstn_cons.
  destruct i as [|i], j as [|j]; try lia.
  - injection Hi as -> _. injection Hj as Hse _.
    simpl. rewrite <- Hse, !Nat.eqb_refl. f_equal. f_equal; simpl; lia.
  - injection Hi as -> _. simpl in Hj.
    assert (Hide : Nat.eqb (startContainer range) (endContainer range) = false).
    { apply Nat.eqb_neq. intros E. apply Hid. rewrite E. eapply lookup_fst_elem, Hj. }
    simpl. rewrite Nat.eqb_refl, Hide.
    rewrite (walk_start_passed l range _ eo _ j edata rest Hnd' Hj).
    + f_equal. f_equal; simpl; lia.
    + intros Hin. apply Hid.
      apply list_elem_of_In in Hin. apply list_elem_of_In.
      apply in_map_iff in Hin as (x & Hx1 & Hx2). apply in_map_iff.
      exists x. split; [exact Hx1 |]. apply list_elem_of_In.
      apply list_elem_of_In in Hx2. apply elem_of_take in Hx2 as (k & Hk & _).
      eapply list_elem_of_lookup_2, Hk.
  - simpl in Hi, Hj.
    assert (Hids : Nat.eqb id (startContainer range) = false).
    { apply Nat.eqb_neq. intros ->. apply Hid. eapply lookup_fst_elem, Hi. }
    assert (Hide : Nat.eqb id (endContainer range) = false).
    { apply Nat.eqb_neq. intros ->. apply Hid. eapply lookup_fst_elem, Hj. }
    simpl. rewrite Hids, Hide.
    rewrite (IH range so eo _ i j sdata edata rest Hnd' Hi Hj) by lia.
    f_equal. f_equal; simpl; lia.
Qed.

(** A walker that raises before the end container has come up. *)
Lemma walk_raises pre error rest :
  forall range so eo cur,
    Forall (fun tn => fst tn <> endContainer range) pre ->
    walk (map Next pre ++ Raise error :: rest) range so eo cur = Throw error.
Proof.
  induction pre as [|[id d] pre IH]; intros range so eo cur Hpre; [reflexivity |].
  apply Forall_cons in Hpre as [Hid Hpre]. simpl in Hid. simpl.
  apply Nat.eqb_neq in Hid. rewrite Hid. now apply IH.
Qed.

Lemma ids_Element i cs : ids (Element i cs) = i :: flat_map ids cs.
Proof.
  unfold ids. simpl. f_equal.
  induction cs as [|c cs IH]; simpl; [reflexivity |].
  now rewrite map_app, IH.
Qed.

Lemma self_descendant n : In n (descendants n).
Proof. destruct n; simpl; left; reflexivity. Qed.

Lemma descendants_trans n :
  forall c a, In c (descendants n) -> In a (descendants c) -> In a (descendants n).
Proof.
  induction n as [i d | i cs IH] using Node_ind'; intros c a Hc Ha.
  - destruct Hc as [<- | []]. exact Ha.
  - destruct Hc as [<- | Hc]; [exact Ha |].
    simpl. right. apply in_flat_map in Hc as (ch & Hch & Hc).
    apply in_flat_map. exists ch. split; [exact Hch |].
    rewrite Forall_forall in IH. eapply IH; eauto. now apply list_elem_of_In.
Qed.

Lemma ids_descendant n c t : In c (descendants n) -> In t (ids c) -> In t (ids n).
Proof.
  unfold ids. intros Hc (a & <- & Ha)%in_map_iff.
  apply in_map. eapply descendants_trans; eauto.
Qed.

Lemma textNodes_ids n : map fst (textNodes n) `sublist_of` ids n.
Proof.
  induction n as [i d | i cs IH] using Node_ind'; [reflexivity |].
  rewrite ids_Element. simpl. apply sublist_cons.
  induction IH as [|c cs Hc _ IHcs]; simpl; [constructor |].
  rewrite map_app. now apply sublist_app.
Qed.

Lemma textNodesBelow_ids n : map fst (textNodesBelow n) `sublist_of` ids n.
Proof.
  destruct n as [i d | i cs]; [apply sublist_nil_l |]. apply (textNodes_ids (Element i cs)).
Qed.

Lemma descendants_sublist n :
  forall c, In c (descendants n) -> ids c `sublist_of` ids n.
Proof.
  induction n as [i d | i cs IH] using Node_ind'; intros c Hc.
  - destruct Hc as [<- | []]. reflexivity.
  - destruct Hc as [<- | Hc]; [reflexivity |].
    rewrite ids_Element. apply sublist_cons.
    induction IH as [|ch cs Hch _ IHcs]; simpl in *; [contradiction |].
    apply in_app_or in Hc as [Hc | Hc].
    + apply sublist_inserts_r. now apply Hch.
    + apply sublist_inserts_l. now apply IHcs.
Qed.

Lemma inclusiveAncestors_Element i cs t :
  inclusiveAncestors (Element i cs) t =
  if Nat.eqb i t then [Element i cs]
  else match firstChain (fun c => inclusiveAncestors c t) cs with
       | [] => []
       | chain => chain ++ [Element i cs]
       end.
Proof. reflexivity. Qed.

Lemma firstChain_cons f c cs :
  firstChain f (c :: cs) = match f c with [] => firstChain f cs | chain => chain end.
Proof. reflexivity. Qed.

Lemma chain_nil n t : ~ In t (ids n) -> inclusiveAncestors n t = [].
Proof.
  induction n as [i d | i cs IH] using Node_ind'; intros Ht.
  - simpl. destruct (Nat.eqb_spec i t) as [->|]; [|reflexivity].
    exfalso. apply Ht. left. reflexivity.
  - rewrite ids_Element in Ht. rewrite inclusiveAncestors_Element.
    destruct (Nat.eqb_spec i t) as [->|_]; [exfalso; apply Ht; left; reflexivity |].
    assert (E : firstChain (fun c => inclusiveAncestors c t) cs = []); [|now rewrite E].
    assert (Ht' : ~ In t (flat_map ids cs)) by (intros H; apply Ht; right; exact H).
    clear Ht. induction IH as [|ch cs Hch _ IHcs]; [reflexivity |].
    simpl in Ht'. rewrite firstChain_cons.
    rewrite Hch by (intros H; apply Ht', in_or_app; left; exact H).
    apply IHcs. intros H. apply Ht', in_or_app. right. exact H.
Qed.

Lemma chain_in n t : forall a, In a (inclusiveAncestors n t) -> In a (descendants n).
Proof.
  induction n as [i d | i cs IH] using Node_ind'; intros a Ha.
  - simpl in Ha. destruct (Nat.eqb i t); [|contradiction].
    destruct Ha as [<- | []]. left. reflexivity.
  - rewrite inclusiveAncestors_Element in Ha. destruct (Nat.eqb i t).
    { destruct Ha as [<- | []]. left. reflexivity. }
    assert (Ha' : In a (firstChain (fun c => inclusiveAncestors c t) cs) \/ a = Element i cs).
    { destruct (firstChain _ cs) as [|x chain]; [contradiction |].
      apply in_app_or in Ha as [Ha | [<- | []]]; [left; exact Ha | right; reflexivity]. }
    clear Ha. destruct Ha' as [Ha | ->]; [|left; reflexivity].
    simpl. right. induction IH as [|ch cs Hch _ IHcs]; [contradiction |].
    rewrite firstChain_cons in Ha. simpl. apply in_or_app.
    destruct (inclusiveAncestors ch t) eqn:E.
    + right. now apply IHcs.
    + left. apply Hch. exact Ha.
Qed.

Lemma chain_last n t : In t (ids n) -> exists l, inclusiveAncestors n t = l ++ [n].
Proof.
  induction n as [i d | i cs IH] using Node_ind'; intros Ht.
  - destruct Ht as [<- | []]. exists []. simpl. now rewrite Nat.eqb_refl.
  - rewrite ids_Element in Ht. rewrite inclusiveAncestors_Element.
    destruct (Nat.eqb_spec i t) as [_|Hne]; [exists []; reflexivity |].
    destruct Ht as [? | Ht]; [contradiction |].
    assert (E : firstChain (fun c => inclusiveAncestors c t) cs <> []).
    { clear Hne. induction IH as [|ch cs Hch _ IHcs]; [contradiction |].
      simpl in Ht. rewrite firstChain_cons.
      destruct (inclusiveAncestors ch t) eqn:Ec; [|discriminate].
      apply in_app_or in Ht as [Ht | Ht]; [|now apply IHcs].
      destruct (Hch Ht) as [l Hl]. now destruct l. }
    destruct (firstChain _ cs) as [|x chain]; [contradiction |].
    exists (x :: chain). reflexivity.
Qed.

Lemma chain_through n t :
  forall c, NoDup (ids n) -> In c (descendants n) -> In t (ids c) ->
            exists above, inclusiveAncestors n t = inclusiveAncestors c t ++ above.
Proof.
  induction n as [i d | i cs IH] using Node_ind'; intros c Hnd Hc Ht.
  - destruct Hc as [<- | []]. exists []. now rewrite app_nil_r.
  - destruct Hc as [<- | Hc]; [exists []; now rewrite app_nil_r |].
    rewrite ids_Element in Hnd. apply NoDup_cons in Hnd as [Hi Hnd].
    assert (Htc : In t (flat_map ids cs)).
    { pose proof (ids_descendant (Element i cs) c t (or_intror Hc) Ht) as H.
      rewrite ids_Element in H. destruct H as [<- | H]; [|exact H].
      exfalso. apply Hi, list_elem_of_In.
      apply in_flat_map in Hc as (ch & Hch & Hc). apply in_flat_map.
      exists ch. split; [exact Hch |]. eapply ids_descendant; eauto. }
    assert (Hne : Nat.eqb i t = false).
    { apply Nat.eqb_neq. intros ->. apply Hi, list_elem_of_In, Htc. }
    rewrite inclusiveAncestors_Element, Hne.
    assert (E : exists above, firstChain (fun c => inclusiveAncestors c t) cs
                              = inclusiveAncestors c t ++ above).
    { clear Hi Hne Htc. induction IH as [|ch cs Hch _ IHcs]; [contradiction |].
      simpl in Hc, Hnd. rewrite firstChain_cons.
      apply NoDup_app in Hnd as (Hnd1 & Hdisj & Hnd2).
      apply in_app_or in Hc as [Hc | Hc].
      - destruct (Hch c Hnd1 Hc Ht) as [above Ha]. exists above.
        rewrite Ha. destruct (chain_last c t Ht) as [l ->].
        now destruct l.
      - rewrite chain_nil; [now apply IHcs |].
        intros Hin. apply (Hdisj t); [now apply list_elem_of_In |].
        apply list_elem_of_In.
        apply in_flat_map in Hc as (ch' & Hch' & Hc). apply in_flat_map.
        exists ch'. split; [exact Hch' |]. eapply ids_descendant; eauto. }
    destruct E as [above E]. rewrite E.
    destruct (chain_last c t Ht) as [l Hl]. rewrite Hl.
    exists (above ++ [Element i cs]).
    destruct l; simpl; rewrite <- ?app_assoc; reflexivity.
Qed.

Lemma find_upto {A} (p : A -> bool) l c above :
  p c = true -> exists a, In a (l ++ [c]) /\ List.find p ((l ++ [c]) ++ above) = Some a.
Proof.
  intros Hp. induction l as [|x l (a & Ha & IH)]; simpl.
  - rewrite Hp. exists c. split; [left |]; reflexivity.
  - destruct (p x); [exists x; split; [left |]; reflexivity |].
    exists a. split; [right; exact Ha | exact IH].
Qed.

Lemma contains_descendant n a : In a (descendants n) -> contains n (Some (nodeId a)) = true.
Proof.
  intros Ha. apply existsb_exists. exists a. split; [exact Ha | apply Nat.eqb_refl].
Qed.

Lemma contains_id n t : In t (ids n) -> contains n (Some t) = true.
Proof. intros (a & <- & Ha)%in_map_iff. now apply contains_descendant. Qed.

(** A range whose two containers are in a node of the document has its
    common ancestor in that node. *)
Lemma commonAncestor_contained doc container range :
  NoDup (ids doc) -> In container (descendants doc) ->
  In (startContainer range) (ids container) ->
  In (endContainer range) (ids container) ->
  contains container (commonAncestorContainer doc range) = true.
Proof.
  intros Hnd Hc Hs He. unfold commonAncestorContainer.
  destruct (chain_through doc _ container Hnd Hc Hs) as [above ->].
  destruct (chain_last container _ Hs) as [l Hl]. rewrite Hl.
  destruct (find_upto (fun a => contains a (Some (endContainer range))) l container above
              (contains_id _ _ He)) as (a & Ha & ->).
  rewrite <- Hl in Ha. simpl. apply contains_descendant. eapply chain_in, Ha.
Qed.

End SelectionFacts.

Section SelectionTheorems.
Import AsciifyReact.

(** C1. A selection whose range starts and ends on text nodes below the
    container of a document, the start not after the end in document
    order, and whose text is empty only if the range covers no character:
    the walk stops at the end container, whatever would follow it, with
    [startOffset] and [endOffset] equal to the characters of the text
    nodes before the container in question plus the offset in it,
    nothing is logged, and the set handed on holds exactly the [k] with
    [startOffset <= k < min endOffset contentLength], whatever the
    lengths of the text nodes. *)
Theorem selected_indices_of_range doc container sel range contentLength i j sdata edata :
  NoDup (ids doc) ->
  In container (descendants doc) ->
  getRangeAt sel 0 = Some range ->
  textNodesBelow container !! i = Some (startContainer range, sdata) ->
  textNodesBelow container !! j = Some (endContainer range, edata) ->
  i <= j ->
  let startOff := textLength (take i (textNodesBelow container)) + startOffset range in
  let endOff := textLength (take j (textNodesBelow container)) + endOffset range in
  (toString sel = EmptyString -> endOff <= startOff) ->
  let result := computeSelectedIndices createTreeWalker doc (Some container) (Some sel)
                                       contentLength in
  walk (createTreeWalker container) range 0 0 0 = Return (startOff, endOff)
  /\ (forall rest,
        walk (map Next (take (S j) (textNodesBelow container)) ++ rest) range 0 0 0
        = Return (startOff, endOff))
  /\ snd result = []
  /\ (forall k, k ∈ fst result <-> startOff <= k < Nat.min endOff contentLength).
Proof.
  intros Hnd Hc Hr Hi Hj Hij startOff endOff Hts result.
  assert (Hsub : ids container `sublist_of` ids doc) by now apply descendants_sublist.
  assert (Hleaves : NoDup (map fst (textNodesBelow container))).
  { eapply sublist_NoDup; [|apply textNodesBelow_ids].
    eapply sublist_NoDup; [exact Hnd | exact Hsub]. }
  assert (Hstop : forall rest,
             walk (map Next (take (S j) (textNodesBelow container)) ++ rest) range 0 0 0
             = Return (startOff, endOff)).
  { intros rest.
    now rewrite (walk_offsets _ range 0 0 0 i j sdata edata rest Hleaves Hi Hj Hij). }
  assert (Hwalk : walk (createTreeWalker container) range 0 0 0 = Return (startOff, endOff)).
  { unfold createTreeWalker.
    rewrite <- (take_drop (S j) (textNodesBelow container)), map_app. apply Hstop. }
  assert (Hin : forall t d n, textNodesBelow container !! n = Some (t, d) ->
                              In t (ids container)).
  { intros t d n Hn. apply list_elem_of_In.
    eapply sublist_subseteq; [apply textNodesBelow_ids |].
    eapply lookup_fst_elem, Hn. }
  assert (Hcontains : contains container (commonAncestorContainer doc range) = true).
  { apply commonAncestor_contained; eauto. }
  assert (Hcount : (0 <? rangeCount sel) = true).
  { unfold getRangeAt in Hr. unfold rangeCount.
    destruct (ranges sel); [discriminate | reflexivity]. }
  split; [exact Hwalk |]. split; [exact Hstop |].
  unfold result, computeSelectedIndices. rewrite Hcount.
  destruct (toString sel) as [|c text] eqn:Etext.
  - (* the guard on the selected text fails: the range covers nothing *)
    specialize (Hts eq_refl). simpl. split; [reflexivity |].
    intros k. rewrite elem_of_empty. lia.
  - simpl. rewrite Hr, Hcontains, Hwalk. simpl. split; [reflexivity |].
    intros k. rewrite elem_of_addIndices, elem_of_empty. lia.
Qed.

(** C7. A selection whose text is empty, and a selection whose range has
    its common ancestor outside the container, give the empty set, and
    nothing is logged. *)
Theorem invalid_selection_empty tw doc root sel contentLength :
  toString sel = EmptyString
  \/ (exists range container,
        getRangeAt sel 0 = Some range /\ root = Some container
        /\ contains container (commonAncestorContainer doc range) = false) ->
  computeSelectedIndices tw doc root (Some sel) contentLength = (∅, []).
Proof.
  intros [Hts | (range & container & Hr & -> & Hc)]; unfold computeSelectedIndices.
  - rewrite Hts. simpl. now rewrite andb_false_r.
  - rewrite Hr, Hc. now destruct (_ && _).
Qed.

(** C8. When the walker raises before the end container has come up, the
    handler does not raise: it hands on the empty set, which clears the
    selected indices, and the failure goes to the console; the document,
    the container and the selection are as they were. *)
Theorem walk_failure_clears tw doc container sel range contentLength pre error rest :
  getRangeAt sel 0 = Some range ->
  tw container = map Next pre ++ Raise error :: rest ->
  Forall (fun tn => fst tn <> endContainer range) pre ->
  let warnings := if (0 <? String.length (toString sel))
                     && contains container (commonAncestorContainer doc range)
                  then ["Selection calculation failed: " +:+ error]
                  else [] in
  walk (tw container) range 0 0 0 = Throw error
  /\ computeSelectedIndices tw doc (Some container) (Some sel) contentLength
     = (∅, warnings)
  /\ (forall p,
        document p = doc -> containerRef p = Some container -> selection p = Some sel ->
        let p' := handleSelectionChange tw p in
        selectedChars p' = ∅ /\ console p' = console p ++ warnings
        /\ document p' = document p /\ containerRef p' = containerRef p
        /\ selection p' = selection p).
Proof.
  intros Hr Htw Hpre warnings.
  assert (Hwalk : walk (tw container) range 0 0 0 = Throw error)
    by (rewrite Htw; now apply walk_raises).
  split; [exact Hwalk |].
  assert (Hcount : (0 <? rangeCount sel) = true).
  { unfold getRangeAt in Hr. unfold rangeCount.
    destruct (ranges sel); [discriminate | reflexivity]. }
  assert (Hres : forall n, computeSelectedIndices tw doc (Some container) (Some sel) n
                           = (∅, warnings)).
  { intros n. unfold computeSelectedIndices, warnings. rewrite Hcount, Hr, Hwalk. simpl.
    destruct (0 <? String.length (toString sel)); simpl; [|reflexivity].
    destruct (contains _ _); reflexivity. }
  split; [apply Hres |].
  intros p Hd Hc Hs p'. unfold p', handleSelectionChange.
  rewrite Hd, Hc, Hs, Hres. repeat split; reflexivity.
Qed.

End SelectionTheorems.

Section SelectionWitnesses.
Import AsciifyReact.

Lemma ex_doc_ids_distinct : NoDup (ids ex_doc).
Proof. apply (bool_decide_unpack _). vm_compute. exact I. Qed.

Lemma selected_indices_of_range_witness :
  (0 ∈ fst (computeSelectedIndices createTreeWalker ex_doc (Some ex_root)
              (ex_select ex_range_A "A") 2)
   /\ 1 ∉ fst (computeSelectedIndices createTreeWalker ex_doc (Some ex_root)
                (ex_select ex_range_A "A") 2))
  /\ (0 ∈ fst (computeSelectedIndices createTreeWalker ex_doc (Some ex_root)
                 (ex_select ex_range_AB "AB") 1)
      /\ 1 ∉ fst (computeSelectedIndices createTreeWalker ex_doc (Some ex_root)
                   (ex_select ex_range_AB "AB") 1)).
Proof.
  assert (Hroot : In ex_root (descendants ex_doc))
    by (simpl; right; right; right; left; reflexivity).
  split.
  - destruct (selected_indices_of_range ex_doc ex_root
                {| ranges := [ex_range_A]; toString := "A" |} ex_range_A 2 0 0 "A" "A"
                ex_doc_ids_distinct Hroot eq_refl eq_refl eq_refl (Nat.le_refl 0))
      as (_ & _ & _ & H); [discriminate |].
    split.
    + apply H. simpl. lia.
    + intros H1. apply H in H1. simpl in H1. lia.
  - destruct (selected_indices_of_range ex_doc ex_root
                {| ranges := [ex_range_AB]; toString := "AB" |} ex_range_AB 1 0 1 "A" "B"
                ex_doc_ids_distinct Hroot eq_refl eq_refl eq_refl (Nat.le_succ_diag_r 0))
      as (_ & _ & _ & H); [discriminate |].
    split.
    + apply H. simpl. lia.
    + intros H1. apply H in H1. simpl in H1. lia.
Defined.

Lemma invalid_selection_empty_witness :
  computeSelectedIndices createTreeWalker ex_doc (Some ex_root)
    (ex_select ex_range_outside "Loading fonts...A") 2 = (∅, []).
Proof.
  apply (invalid_selection_empty createTreeWalker ex_doc (Some ex_root)
           {| ranges := [ex_range_outside]; toString := "Loading fonts...A" |} 2).
  right. exists ex_range_outside, ex_root. repeat split; reflexivity.
Defined.

Lemma walk_failure_clears_witness :
  computeSelectedIndices ex_failing_walker ex_doc (Some ex_root)
    (ex_select ex_range_AB "AB") 2
  = (∅, ["Selection calculation failed: node detached"]).
Proof.
  apply (proj1 (proj2 (walk_failure_clears ex_failing_walker ex_doc ex_root
                  {| ranges := [ex_range_AB]; toString := "AB" |} ex_range_AB 2
                  [(3, "A")] "node detached" [] eq_refl eq_refl
                  ltac:(repeat constructor; simpl; lia)))).
Defined.

End SelectionWitnesses.

(** * Further properties of the middleware *)

Section MiddlewarePaths.
Import Middleware.
Local Open Scope async_scope.

Variable enc : string -> list byte.

(** The four ways through [onRequest], for any digest primitive. *)
Lemma onRequest_paths sd ctx response :
  run (onRequest enc sd ctx (Return response)) =
  match producer_validator response with
  | Some v =>
      (Return (if bool_decide (if_none_match ctx = Some v)
               then not_modified [("ETag", v); ("Cache-Control", long_lived)]
               else response), [])
  | None =>
      match body response with
      | None => (Return response, [])
      | Some s =>
          match failure s with
          | Some reason => (Throw (Rejected reason), [])
          | None =>
              let buf := concat (chunks s) in
              match sd buf with
              | Throw e => (Throw e, [Drained buf; Hashed buf])
              | Return h =>
                  let etag := dquote +:+ String.concat EmptyString (map hex_pair h)
                                     +:+ dquote in
                  let hs := Headers_set (Headers_set (headers response) "ETag" etag)
                                        "Cache-Control" long_lived in
                  if bool_decide (if_none_match ctx = Some etag)
                  then (Return (not_modified hs), [Drained buf; Hashed buf])
                  else (new_Response (Some buf)
                          {| init_status := status response;
                             init_statusText := statusText response;
                             init_headers := hs |},
                        [Drained buf; Hashed buf])
              end
          end
      end
  end.
Proof.
  destruct (producer_validator response) as [v|] eqn:Hp.
  - now apply producer_path.
  - unfold producer_validator in Hp.
    unfold run, onRequest, bind, await. rewrite Hp.
    destruct (body response) as [s|] eqn:Hb; [|reflexivity].
    unfold computeEtag, clone, arrayBuffer, bind. rewrite Hb.
    destruct (failure s) as [reason|]; [reflexivity |].
    unfold emit, ret, digest, bind, emit, await. cbn [app].
    destruct (sd (concat (chunks s))) as [h|e]; [|reflexivity].
    unfold ret. cbn [fst snd]. fold (if_none_match ctx).
    rewrite match_test.
    + destruct (bool_decide _); reflexivity.
    + unfold dquote. rewrite append_cons. discriminate.
Qed.

End MiddlewarePaths.

Section MiddlewareFurther.
Import Middleware.
Local Open Scope async_scope.

Variable enc : string -> list byte.



(** X2. The middleware stacks: its tagged response carries a validator,
    so a second pass over it, with any digest primitive, drains and
    hashes nothing and either hands it on as it is or answers the 304. *)
Theorem tagged_output_is_prevalidated sd ctx1 ctx2 response stream out t :
  producer_validator response = None ->
  body response = Some stream -> failure stream = None ->
  if_none_match ctx1 <> Some (validator (concat (chunks stream))) ->
  run (onRequest enc webcrypto_digest ctx1 (Return response)) = (Return out, t) ->
  let etag := validator (concat (chunks stream)) in
  run (onRequest enc sd ctx2 (Return out))
  = (Return (if bool_decide (if_none_match ctx2 = Some etag)
             then not_modified [("ETag", etag); ("Cache-Control", long_lived)]
             else out), []).
Proof.
  intros Hp Hb Hf Hinm Hrun etag.
  rewrite onRequest_paths, Hp, Hb, Hf in Hrun. unfold webcrypto_digest in Hrun.
  cbv zeta in Hrun. fold (validator (concat (chunks stream))) in Hrun. fold etag in Hrun.
  rewrite bool_decide_eq_false_2 in Hrun by assumption.
  assert (Hout : producer_validator out = Some etag).
  { unfold new_Response in Hrun. cbn [init_status init_statusText init_headers] in Hrun.
    destruct (negb _); [discriminate |].
    destruct (null_body_status _); [discriminate |].
    injection Hrun as <- _. unfold producer_validator. cbn [headers].
    apply narrow_Some. split; [apply tagged_headers | apply validator_nonempty]. }
  now rewrite onRequest_paths, Hout.
Qed.


(** X4. A response with a body whose status [new Response] does not
    take (below 200 or above 599), without a validator of its producer:
    unless the request's [If-None-Match] is the computed validator, the
    middleware throws a [RangeError] after draining and hashing, and
    returns nothing. *)
Theorem tagging_rejects_status ctx response stream :
  producer_validator response = None ->
  body response = Some stream -> failure stream = None ->
  status response < 200 \/ 599 < status response ->
  let buf := concat (chunks stream) in
  if_none_match ctx <> Some (validator buf) ->
  run (onRequest enc webcrypto_digest ctx (Return response))
  = (Throw (RangeError "status"), [Drained buf; Hashed buf]).
Proof.
  intros Hp Hb Hf Hst buf Hinm.
  rewrite onRequest_paths, Hp, Hb, Hf. unfold webcrypto_digest. cbv zeta.
  fold (validator (concat (chunks stream))). fold buf.
  rewrite bool_decide_eq_false_2 by assumption.
  unfold new_Response. cbn [init_status init_statusText init_headers].
  assert ((200 <=? status response) && (status response <=? 599) = false) as ->.
  { apply andb_false_iff. destruct Hst; [left | right]; apply Nat.leb_gt; assumption. }
  reflexivity.
Qed.

(** X5. Whatever the middleware returns, with any digest primitive, is
    the producer's response itself, or a 304 without a body whose [ETag]
    is the request's [If-None-Match], or a response with the status, the
    status text and the body bytes of the producer's. *)
Theorem outcome_shapes sd ctx response out t :
  run (onRequest enc sd ctx (Return response)) = (Return out, t) ->
  (out = response /\ t = [])
  \/ (exists v, if_none_match ctx = Some v /\ status out = 304 /\ body out = None
                /\ Headers_get (headers out) "etag" = Some v)
  \/ (exists s b, body response = Some s /\ body out = Some b /\ failure b = None
                  /\ concat (chunks b) = concat (chunks s)
                  /\ status out = status response
                  /\ statusText out = statusText response
                  /\ t = [Drained (concat (chunks s)); Hashed (concat (chunks s))]).
Proof.
  rewrite onRequest_paths.
  destruct (producer_validator response) as [v|] eqn:Hp.
  - destruct (bool_decide (if_none_match ctx = Some v)) eqn:E; intros [= <- <-].
    + right. left. exists v. apply bool_decide_eq_true in E. repeat split; assumption.
    + left. split; reflexivity.
  - destruct (body response) as [s|] eqn:Hb; [|intros [= <- <-]; left; split; reflexivity].
    destruct (failure s); [discriminate |]. cbv zeta.
    destruct (sd (concat (chunks s))) as [h|e]; [|discriminate].
    destruct (bool_decide _) eqn:E.
    + intros [= <- <-]. right. left. eexists. apply bool_decide_eq_true in E.
      split; [exact E |]. split; [reflexivity |]. split; [reflexivity |].
      apply tagged_headers.
    + unfold new_Response. cbn [init_status init_statusText init_headers].
      destruct (negb _); [discriminate |].
      destruct (null_body_status _); [discriminate |].
      intros [= <- <-]. right. right. eexists s, _.
      cbn [body status statusText chunks failure].
      repeat split. simpl. apply app_nil_r.
Qed.

End MiddlewareFurther.

Section DigestEncoding.
Import Middleware.

Variable enc : string -> list byte.

Lemma unhex_hex_pair b : unhex_pair (hex_pair b) = b.
Proof. destruct b; vm_compute; reflexivity. Qed.

Lemma hex_concat_cons b bs :
  String.concat EmptyString (map hex_pair (b :: bs))
  = hex_pair b +:+ String.concat EmptyString (map hex_pair bs).
Proof.
  simpl. destruct (map hex_pair bs) eqn:Em; simpl; [|reflexivity].
  symmetry. apply string_append_empty.
Qed.

Lemma hex_pair_two b : exists x y, hex_pair b = String x (String y EmptyString).
Proof.
  destruct (hex_pair_shape b) as [Hl _].
  destruct (hex_pair b) as [|x [|y [|z r]]]; try discriminate. eauto.
Qed.

Lemma hex_concat_inj h1 :
  forall h2,
    String.concat EmptyString (map hex_pair h1) = String.concat EmptyString (map hex_pair h2) ->
    h1 = h2.
Proof.
  induction h1 as [|b1 r1 IH]; intros [|b2 r2] H.
  - reflexivity.
  - apply (f_equal String.length) in H.
    rewrite (proj1 (hex_concat_shape (b2 :: r2))) in H. simpl in H. lia.
  - apply (f_equal String.length) in H.
    rewrite (proj1 (hex_concat_shape (b1 :: r1))) in H. simpl in H. lia.
  - rewrite !hex_concat_cons in H.
    destruct (hex_pair_two b1) as (x1 & y1 & E1), (hex_pair_two b2) as (x2 & y2 & E2).
    rewrite E1, E2, !append_cons in H. injection H as Hx Hy Hr.
    f_equal; [|now apply IH].
    rewrite <- (unhex_hex_pair b1), <- (unhex_hex_pair b2), E1, E2. now subst.
Qed.

(** X6. [digest] renders different hashes differently: for two inputs
    that the primitive hashes, the hexadecimal strings are equal exactly
    when the hash bytes are. *)
Theorem digest_hex_faithful sd d1 d2 h1 h2 :
  sd d1 = Return h1 -> sd d2 = Return h2 ->
  (fst (run (digest enc sd (inr d1))) = fst (run (digest enc sd (inr d2))) <-> h1 = h2).
Proof.
  intros H1 H2. unfold run, digest, bind, emit, await, ret. rewrite H1, H2. simpl.
  split.
  - intros [= H]. now apply hex_concat_inj.
  - now intros ->.
Qed.

End DigestEncoding.

(** * Further properties of the selection handler *)

Section SelectionFurther.
Import AsciifyReact.

Lemma walk_end_missing leaves :
  forall range so eo cur,
    endContainer range ∉ map fst leaves ->
    exists so', walk (map Next leaves) range so eo cur = Return (so', eo).
Proof.
  induction leaves as [|[id d] l IH]; intros range so eo cur Hend; simpl; [eauto |].
  apply not_elem_of_cons in Hend as [Hne Hend]. simpl in Hne.
  destruct (Nat.eqb_spec id (endContainer range)) as [E|_]; [congruence |].
  now apply IH.
Qed.

Lemma addIndices_to_zero i contentLength : addIndices i 0 contentLength ∅ = ∅.
Proof.
  apply elem_of_equiv_empty_L. intros k Hk.
  apply elem_of_addIndices in Hk as [Hk | [[_ Hk] _]]; [now apply elem_of_empty in Hk | lia].
Qed.

(** What the handler hands on is the empty set or the product of the
    [for] loop. *)
Lemma handed_on tw doc root selection contentLength :
  fst (computeSelectedIndices tw doc root selection contentLength) = ∅
  \/ exists so eo,
       fst (computeSelectedIndices tw doc root selection contentLength)
       = addIndices so eo contentLength ∅.
Proof.
  unfold computeSelectedIndices.
  destruct selection as [sel|]; [|now left].
  destruct (_ && _); [|now left].
  destruct (getRangeAt sel 0) as [range|]; [|now left].
  destruct root as [container|]; [|now left].
  destruct (contains _ _); [|now left].
  destruct (walk _ _ _ _ _) as [[so eo]|error]; [|now left].
  right. now exists so, eo.
Qed.

Lemma leaves_distinct doc container :
  NoDup (ids doc) -> In container (descendants doc) ->
  NoDup (map fst (textNodesBelow container)).
Proof.
  intros Hnd Hc. eapply sublist_NoDup; [|apply textNodesBelow_ids].
  eapply sublist_NoDup; [exact Hnd | now apply descendants_sublist].
Qed.

(** X7. Whatever the walker, the document, the container and the
    selection are, the set handed to [setSelectedChars] holds only
    indices below [contentLength], and it is an interval: with two of its
    members it holds all indices between them. *)
Theorem selected_indices_bounded_interval tw doc root selection contentLength :
  let chosen := fst (computeSelectedIndices tw doc root selection contentLength) in
  (forall k, k ∈ chosen -> k < contentLength)
  /\ (forall a b k, a ∈ chosen -> b ∈ chosen -> a <= k <= b -> k ∈ chosen).
Proof.
  intros chosen. unfold chosen.
  destruct (handed_on tw doc root selection contentLength) as [-> | (so & eo & ->)].
  - split; [intros k Hk | intros a b k Hk _ _]; now apply elem_of_empty in Hk.
  - split.
    + intros k Hk. apply elem_of_addIndices in Hk as [Hk | [_ Hk]];
        [now apply elem_of_empty in Hk | exact Hk].
    + intros a b k Ha Hb Hk. apply elem_of_addIndices. right.
      apply elem_of_addIndices in Ha as [Ha | Ha]; [now apply elem_of_empty in Ha |].
      apply elem_of_addIndices in Hb as [Hb | Hb]; [now apply elem_of_empty in Hb |].
      lia.
Qed.

(** X9. When the end container of the range is not one of the text
    nodes below the container (an element, say, as after selecting
    all), [endOffset] stays 0 and the set is empty, whatever the
    selection covers. *)
Theorem end_off_text_selects_nothing doc container sel range contentLength :
  getRangeAt sel 0 = Some range ->
  endContainer range ∉ map fst (textNodesBelow container) ->
  computeSelectedIndices createTreeWalker doc (Some container) (Some sel) contentLength
  = (∅, []).
Proof.
  intros Hr Hend. unfold computeSelectedIndices. rewrite Hr.
  destruct (_ && _); [|reflexivity].
  destruct (contains _ _); [|reflexivity].
  unfold createTreeWalker.
  destruct (walk_end_missing (textNodesBelow container) range 0 0 0 Hend) as [so ->].
  now rewrite addIndices_to_zero.
Qed.

(** X10. When the end container is a text node below the container but
    the start container is none of the text nodes up to it (an element,
    say), [startOffset] stays 0: a selection that passes the guards
    gives the indices from 0 up to the end. *)
Theorem start_off_text_selects_from_zero doc container sel range contentLength j edata :
  NoDup (ids doc) ->
  In container (descendants doc) ->
  getRangeAt sel 0 = Some range ->
  toString sel <> EmptyString ->
  contains container (commonAncestorContainer doc range) = true ->
  textNodesBelow container !! j = Some (endContainer range, edata) ->
  startContainer range ∉ map fst (take (S j) (textNodesBelow container)) ->
  let endOff := textLength (take j (textNodesBelow container)) + endOffset range in
  forall k,
    k ∈ fst (computeSelectedIndices createTreeWalker doc (Some container) (Some sel)
               contentLength)
    <-> k < Nat.min endOff contentLength.
Proof.
  intros Hnd Hc Hr Hts Hcontains Hj Hs endOff k.
  pose proof (leaves_distinct doc container Hnd Hc) as Hleaves.
  assert (Hwalk : walk (createTreeWalker container) range 0 0 0 = Return (0, endOff)).
  { unfold createTreeWalker.
    rewrite <- (take_drop (S j) (textNodesBelow container)), map_app.
    now rewrite (walk_start_passed _ range 0 0 0 j edata _ Hleaves Hj Hs). }
  assert (Hcount : (0 <? rangeCount sel) = true).
  { unfold getRangeAt in Hr. unfold rangeCount.
    destruct (ranges sel); [discriminate | reflexivity]. }
  unfold computeSelectedIndices. rewrite Hcount, Hr, Hcontains, Hwalk.
  destruct (toString sel); [contradiction |]. simpl.
  rewrite elem_of_addIndices, elem_of_empty. lia.
Qed.

End SelectionFurther.

(** * Properties of the characters and the spans *)

Section RenderingFacts.
Import AsciifyReact Component.

Lemma concat_empty_cons x xs :
  String.concat EmptyString (x :: xs) = x +:+ String.concat EmptyString xs.
Proof.
  destruct xs; simpl; [symmetry; apply string_append_empty | reflexivity].
Qed.

Lemma split_length content : length (split content) = String.length content.
Proof.
  unfold split. rewrite length_map.
  induction content as [|c s IH]; simpl; [reflexivity | now rewrite IH].
Qed.

Lemma split_lookup content :
  forall i, split content !! i = (fun c => String c EmptyString) <$> String.get i content.
Proof.
  unfold split. induction content as [|c s IH]; intros [|i]; simpl; try reflexivity.
  apply IH.
Qed.

Lemma split_join content : String.concat EmptyString (split content) = content.
Proof.
  induction content as [|c s IH]; [reflexivity |].
  change (split (String c s)) with (String c EmptyString :: split s).
  now rewrite concat_empty_cons, IH.
Qed.

Lemma characters_lookup content selected i :
  characters content selected !! i
  = (fun c => {| char := String c EmptyString; index := i;
                 isSelected := bool_decide (i ∈ selected) |}) <$> String.get i content.
Proof.
  unfold characters. rewrite list_lookup_imap, split_lookup.
  now destruct (String.get i content).
Qed.

Lemma get_Some content i : i < String.length content -> exists c, String.get i content = Some c.
Proof.
  revert i. induction content as [|c s IH]; intros i Hi; simpl in Hi; [lia |].
  destruct i as [|i]; simpl; [eauto | apply IH; lia].
Qed.

(** X11. The characters cover the content: there is one per character
    of the content, their indices are 0, 1, 2, ... in order, joining
    their [char]s gives the content back, and each is marked selected
    exactly when its index is in the set. *)
Theorem characters_cover_content content (selected : gset nat) :
  let cs := characters content selected in
  length cs = String.length content
  /\ map index cs = seq 0 (String.length content)
  /\ String.concat EmptyString (map char cs) = content
  /\ (forall c, c ∈ cs -> (isSelected c = true <-> index c ∈ selected)).
Proof.
  intros cs. unfold cs, characters.
  split; [now rewrite length_imap, split_length |].
  split.
  { change (map index ?l) with (index <$> l).
    rewrite fmap_imap. unfold compose. simpl.
    rewrite (imap_seq_0 (split content) (fun n => n)), list_fmap_id.
    now rewrite split_length. }
  split.
  { change (map char ?l) with (char <$> l).
    rewrite fmap_imap. unfold compose. simpl.
    rewrite (imap_const (fun x : string => x)), list_fmap_id. apply split_join. }
  intros c Hc. apply elem_of_lookup_imap in Hc as (i & x & -> & _). simpl.
  apply bool_decide_eq_true.
Qed.

(** X12. The view has one span per character of the content, and the
    span at an index below the length has that index as key and that
    character as text; its [data-font] and its style are the selected
    ones exactly when the index is in the set, and the default ones
    otherwise. *)
Theorem span_font_follows_selection content hash (selected : gset nat) fontsLoaded i :
  i < String.length content ->
  let v := render content hash selected fontsLoaded in
  length (spans v) = String.length content
  /\ exists sp c,
       spans v !! i = Some sp /\ String.get i content = Some c
       /\ key sp = i /\ children sp = String c EmptyString
       /\ data_font sp = (if bool_decide (i ∈ selected)
                          then "low-blockscript" else "high-blockscript")
       /\ style sp = (if bool_decide (i ∈ selected)
                      then selectedCharStyle else defaultCharStyle fontsLoaded)
       /\ (data_font sp = "low-blockscript" <-> i ∈ selected).
Proof.
  intros Hi v. unfold v, render. cbn [spans]. split.
  { rewrite length_map. unfold characters. now rewrite length_imap, split_length. }
  destruct (get_Some content i Hi) as [c Hc].
  change (map ?f ?l) with (f <$> l).
  rewrite list_lookup_fmap, characters_lookup, Hc. simpl.
  eexists _, c. split; [reflexivity |]. split; [reflexivity |].
  unfold renderChar. cbn [key children data_font style isSelected index char].
  do 4 (split; [reflexivity |]).
  destruct (bool_decide_reflect (i ∈ selected)); split; try easy.
Qed.

End RenderingFacts.

Section MountedSelection.
Import AsciifyReact Component.

Lemma flat_map_spans (l : list Span) :
  forall spanId textId,
    flat_map textNodes (imap (fun i sp => Element (spanId i) [Text (textId i) (children sp)]) l)
    = imap (fun i sp => (textId i, children sp)) l.
Proof.
  induction l as [|sp l IH]; intros spanId textId; [reflexivity |].
  rewrite !imap_cons. simpl. f_equal.
  apply (IH (spanId ∘ S) (textId ∘ S)).
Qed.

Lemma imap_imap {A B C} (l : list A) :
  forall (f : nat -> B -> C) (g : nat -> A -> B),
    imap f (imap g l) = imap (fun n x => f n (g n x)) l.
Proof.
  induction l as [|x l IH]; intros f g; [reflexivity |].
  rewrite !imap_cons. f_equal. apply (IH (f ∘ S) (g ∘ S)).
Qed.

Lemma leaves_of_view rootId spanId textId content hash selected fontsLoaded :
  textNodesBelow (mount rootId spanId textId (render content hash selected fontsLoaded))
  = imap (fun i s => (textId i, s)) (split content).
Proof.
  unfold mount, textNodesBelow. rewrite flat_map_spans.
  unfold render. cbn [spans]. change (map ?f ?l) with (f <$> l).
  rewrite imap_fmap. unfold characters. rewrite imap_imap.
  reflexivity.
Qed.

Lemma textLength_take_split content :
  forall (textId : nat -> NodeId) a,
    a <= String.length content ->
    textLength (take a (imap (fun i s => (textId i, s)) (split content))) = a.
Proof.
  induction content as [|c s IH]; intros textId a Ha; simpl in Ha.
  - now replace a with 0 by lia.
  - destruct a as [|a]; [reflexivity |].
    change (split (String c s)) with (String c EmptyString :: split s).
    rewrite imap_cons. simpl. f_equal. apply (IH (textId ∘ S)). lia.
Qed.

Lemma view_leaf rootId spanId textId content hash selected fontsLoaded a :
  a < String.length content ->
  exists c,
    textNodesBelow (mount rootId spanId textId (render content hash selected fontsLoaded)) !! a
    = Some (textId a, String c EmptyString).
Proof.
  intros Ha. destruct (get_Some content a Ha) as [c Hc]. exists c.
  now rewrite leaves_of_view, list_lookup_imap, split_lookup, Hc.
Qed.

(** The indices between two text nodes below a container of the
    document, for a selection that passes the guards. *)
Lemma indices_between doc container sel range contentLength i j sdata edata :
  NoDup (ids doc) ->
  In container (descendants doc) ->
  getRangeAt sel 0 = Some range ->
  toString sel <> EmptyString ->
  textNodesBelow container !! i = Some (startContainer range, sdata) ->
  textNodesBelow container !! j = Some (endContainer range, edata) ->
  i <= j ->
  forall k,
    k ∈ fst (computeSelectedIndices createTreeWalker doc (Some container) (Some sel)
               contentLength)
    <-> textLength (take i (textNodesBelow container)) + startOffset range <= k
        < Nat.min (textLength (take j (textNodesBelow container)) + endOffset range)
                  contentLength.
Proof.
  intros Hnd Hc Hr Hts Hi Hj Hij k.
  pose proof (leaves_distinct doc container Hnd Hc) as Hleaves.
  assert (Hwalk : walk (createTreeWalker container) range 0 0 0
                  = Return (textLength (take i (textNodesBelow container)) + startOffset range,
                            textLength (take j (textNodesBelow container)) + endOffset range)).
  { unfold createTreeWalker.
    rewrite <- (take_drop (S j) (textNodesBelow container)) at 1. rewrite map_app.
    now rewrite (walk_offsets _ range 0 0 0 i j sdata edata _ Hleaves Hi Hj Hij). }
  assert (Hin : forall t d n, textNodesBelow container !! n = Some (t, d) ->
                              In t (ids container)).
  { intros t d n Hn. apply list_elem_of_In.
    eapply sublist_subseteq; [apply textNodesBelow_ids |].
    eapply lookup_fst_elem, Hn. }
  assert (Hcontains : contains container (commonAncestorContainer doc range) = true).
  { apply commonAncestor_contained; eauto. }
  assert (Hcount : (0 <? rangeCount sel) = true).
  { unfold getRangeAt in Hr. unfold rangeCount.
    destruct (ranges sel); [discriminate | reflexivity]. }
  unfold computeSelectedIndices. rewrite Hcount, Hr, Hcontains, Hwalk.
  destruct (toString sel); [contradiction |]. simpl.
  rewrite elem_of_addIndices, elem_of_empty. lia.
Qed.

(** X13. On the container that the view mounts, one span with one text
    node per character, the running offset of a text node is the index
    of its character: a selection that passes the guards, from the text
    node of character [a] to that of character [b], gives exactly the
    indices from [a] plus the start offset up to, and without, [b] plus
    the end offset, cut at the [contentLength] that the callback holds,
    which need not be the length of the content now on the page. *)
Theorem mounted_selection_selects_characters
    doc rootId spanId textId content hash selected fontsLoaded sel range a b contentLength :
  let container := mount rootId spanId textId (render content hash selected fontsLoaded) in
  NoDup (ids doc) ->
  In container (descendants doc) ->
  getRangeAt sel 0 = Some range ->
  toString sel <> EmptyString ->
  startContainer range = textId a ->
  endContainer range = textId b ->
  a <= b -> b < String.length content ->
  forall k,
    k ∈ fst (computeSelectedIndices createTreeWalker doc (Some container) (Some sel)
               contentLength)
    <-> a + startOffset range <= k < Nat.min (b + endOffset range) contentLength.
Proof.
  intros container Hnd Hc Hr Hts Hs He Hab Hb k.
  destruct (view_leaf rootId spanId textId content hash selected fontsLoaded a) as [ca Ha];
    [lia |].
  destruct (view_leaf rootId spanId textId content hash selected fontsLoaded b) as [cb Hb'];
    [lia |].
  rewrite <- Hs in Ha. rewrite <- He in Hb'.
  rewrite (indices_between doc container sel range _ a b _ _ Hnd Hc Hr Hts Ha Hb' Hab k).
  unfold container. rewrite leaves_of_view.
  rewrite !textLength_take_split by lia. reflexivity.
Qed.

End MountedSelection.

(** * Properties of the font check and of the timer *)

Section FontCheck.
Import AsciifyReact Component.

(** X14. However the two font loads end, the font check sets
    [fontsLoaded] and logs one line; the view then shows no notice, and
    every span that is not selected uses the High Blockscript family. *)
Theorem font_check_always_finishes low high content hash (selected : gset nat) :
  let loaded := fst (checkFonts low high) in
  let v := render content hash selected loaded in
  loaded = true
  /\ length (snd (checkFonts low high)) = 1
  /\ notice v = None
  /\ (forall sp, sp ∈ spans v -> key sp ∉ selected ->
        fontFamily (style sp) = dquote +:+ "High Blockscript" +:+ dquote).
Proof.
  intros loaded v.
  assert (Hl : loaded = true) by (unfold loaded; destruct low, high; reflexivity).
  split; [exact Hl |]. split; [destruct low, high; reflexivity |].
  unfold v. rewrite Hl. split; [reflexivity |].
  intros sp Hsp Hkey. unfold render in Hsp. cbn [spans] in Hsp.
  apply list_elem_of_In, in_map_iff in Hsp as (c & <- & Hc).
  apply list_elem_of_In, elem_of_lookup_imap in Hc as (i & x & -> & _).
  unfold renderChar in *. cbn [key style isSelected index] in *.
  now rewrite bool_decide_eq_false_2.
Qed.

End FontCheck.

Section Timer.
Import AsciifyReact Component.

Variable tw : Node -> TreeWalker.

Lemma clearTimeout_single id : clearTimeout id [id] = [].
Proof. unfold clearTimeout. simpl. now rewrite Pos.eqb_refl. Qed.

Lemma cleared m :
  at_most_the_ref m ->
  match debounceTimeoutRef m with
  | Some id => clearTimeout id (pendingTimers m)
  | None => pendingTimers m
  end = [].
Proof.
  intros [H | (id & Href & H)]; rewrite H.
  - now destruct (debounceTimeoutRef m).
  - rewrite Href. apply clearTimeout_single.
Qed.

Lemma schedule_spec m container :
  at_most_the_ref m -> containerRef (page m) = Some container ->
  schedule m = {| page := page m;
                  debounceTimeoutRef := Some (nextTimer m);
                  pendingTimers := [nextTimer m];
                  nextTimer := Pos.succ (nextTimer m);
                  listening := listening m;
                  callbackRuns := callbackRuns m |}.
Proof. intros Hm Hc. unfold schedule. now rewrite Hc, (cleared m Hm). Qed.

Lemma step_at_most_the_ref m e : at_most_the_ref m -> at_most_the_ref (step tw m e).
Proof.
  intros Hm. destruct e as [now | id |]; simpl.
  - destruct (listening m); [|exact Hm].
    destruct (containerRef (page m)) as [container|] eqn:Hc.
    + erewrite schedule_spec; [| exact Hm | exact Hc].
      right. now exists (nextTimer m).
    + unfold schedule. cbn [page withSelection containerRef]. rewrite Hc. exact Hm.
  - destruct (existsb _ _) eqn:E; [|exact Hm]. left. cbn [pendingTimers].
    destruct Hm as [H | (id' & _ & H)]; rewrite H in *; [discriminate |].
    simpl in E. rewrite orb_false_r in E. apply Pos.eqb_eq in E as ->.
    apply clearTimeout_single.
  - left. cbn [pendingTimers]. now apply cleared.
Qed.

Lemma steps_at_most_the_ref events :
  forall m, at_most_the_ref m -> at_most_the_ref (steps tw m events).
Proof.
  induction events as [|e events IH]; intros m Hm; [exact Hm |].
  apply IH. now apply step_at_most_the_ref.
Qed.

(** X15. Whatever events follow the mounting, at most one timer of the
    component is pending, and it is the one that [debounceTimeoutRef]
    holds. *)
Theorem one_timer_pending p firstTimer events :
  let m := steps tw (mounted p firstTimer) events in
  at_most_the_ref m /\ length (pendingTimers m) <= 1.
Proof.
  intros m.
  assert (Hm : at_most_the_ref m) by (apply steps_at_most_the_ref; now left).
  split; [exact Hm |].
  destruct Hm as [-> | (id & _ & ->)]; simpl; lia.
Qed.

Lemma selection_change_step m container now :
  at_most_the_ref m -> listening m = true -> containerRef (page m) = Some container ->
  step tw m (SelectionChange now)
  = {| page := withSelection (page m) now;
       debounceTimeoutRef := Some (nextTimer m);
       pendingTimers := [nextTimer m];
       nextTimer := Pos.succ (nextTimer m);
       listening := true;
       callbackRuns := callbackRuns m |}.
Proof.
  intros Hm Hl Hc. simpl. rewrite Hl.
  erewrite schedule_spec; [reflexivity | exact Hm | exact Hc].
Qed.

Lemma steps_cons m e events : steps tw m (e :: events) = steps tw (step tw m e) events.
Proof. reflexivity. Qed.

Lemma steps_app m l1 l2 : steps tw m (l1 ++ l2) = steps tw (steps tw m l1) l2.
Proof. apply fold_left_app. Qed.

Lemma burst_keeps container changes :
  forall m,
    at_most_the_ref m -> listening m = true -> containerRef (page m) = Some container ->
    let m' := steps tw m (map SelectionChange changes) in
    at_most_the_ref m' /\ same_but_selection m m'.
Proof.
  induction changes as [|now changes IH]; intros m Hm Hl Hc.
  - simpl. unfold same_but_selection. tauto.
  - cbn [map]. rewrite steps_cons, (selection_change_step m container now Hm Hl Hc).
    match goal with |- context [steps tw ?m1 _] => destruct (IH m1) as [Hm' Hs] end.
    + right. now eexists.
    + reflexivity.
    + exact Hc.
    + split; [exact Hm' |].
      unfold same_but_selection in *. cbn in Hs. rewrite Hl. tauto.
Qed.

(** X16. A run of selection changes on a mounted container is
    coalesced: it leaves exactly one timer pending and runs no callback;
    any other timer that fires does nothing; and when the pending timer
    fires, the callback runs once, no timer is left, and the selected
    indices are those of the last selection of the run. *)
Theorem burst_runs_callback_once m container earlier last :
  at_most_the_ref m -> listening m = true -> containerRef (page m) = Some container ->
  let m' := steps tw m (map SelectionChange (earlier ++ [last])) in
  exists id,
    pendingTimers m' = [id]
    /\ callbackRuns m' = callbackRuns m
    /\ selectedChars (page m') = selectedChars (page m)
    /\ (forall other, other <> id -> step tw m' (TimerFires other) = m')
    /\ let m'' := step tw m' (TimerFires id) in
       callbackRuns m'' = S (callbackRuns m)
       /\ pendingTimers m'' = []
       /\ selectedChars (page m'')
          = fst (computeSelectedIndices tw (document (page m)) (Some container) last
                   (String.length (content (page m)))).
Proof.
  intros Hm Hl Hc m'. unfold m'. rewrite map_app, steps_app.
  destruct (burst_keeps container earlier m Hm Hl Hc) as (Hm1 & Hl1 & Hr1 & Hd1 & Hc1 & Hct1 & Hs1 & _).
  set (m1 := steps tw m (map SelectionChange earlier)) in *.
  rewrite Hl in Hl1. rewrite Hc in Hc1. cbn [map].
  rewrite steps_cons, (selection_change_step m1 container last Hm1 Hl1 Hc1).
  unfold steps. cbn [fold_left].
  exists (nextTimer m1). cbn [pendingTimers callbackRuns page withSelection selectedChars].
  split; [reflexivity |]. split; [exact Hr1 |]. split; [exact Hs1 |]. split.
  - intros other Hne. cbn [step pendingTimers existsb].
    destruct (Pos.eqb_spec other (nextTimer m1)); [contradiction | reflexivity].
  - cbn [step pendingTimers existsb]. rewrite Pos.eqb_refl.
    cbn [orb callbackRuns pendingTimers page].
    rewrite clearTimeout_single. split; [now rewrite Hr1 |]. split; [reflexivity |].
    unfold callback.
    cbn [selectedChars document containerRef selection content withSelection].
    now rewrite Hd1, Hc1, Hct1.
Qed.

(** X17. Once the effect is cleaned up, whatever came before and
    whatever comes after, no timer is pending and no callback runs any
    more: the count of runs, the selected indices and the console stay
    as they were at the clean-up. *)
Theorem cleanup_cancels p firstTimer before after :
  let m := steps tw (mounted p firstTimer) before in
  let m' := steps tw m (Cleanup :: after) in
  pendingTimers m' = []
  /\ listening m' = false
  /\ callbackRuns m' = callbackRuns m
  /\ selectedChars (page m') = selectedChars (page m)
  /\ console (page m') = console (page m).
Proof.
  intros m m'.
  assert (Hm : at_most_the_ref m) by (apply steps_at_most_the_ref; now left).
  unfold m'. rewrite steps_cons.
  set (m0 := step tw m Cleanup).
  assert (H0 : pendingTimers m0 = [] /\ listening m0 = false
               /\ callbackRuns m0 = callbackRuns m
               /\ selectedChars (page m0) = selectedChars (page m)
               /\ console (page m0) = console (page m)).
  { unfold m0. simpl. now rewrite (cleared m Hm). }
  clearbody m0. clear m' Hm. revert m0 H0.
  induction after as [|e after IH]; intros m0 H0; [exact H0 |].
  rewrite steps_cons. apply IH. destruct H0 as (Hp & Hl & Hr & Hs & Hc).
  destruct e as [now | id |]; simpl.
  - rewrite Hl. cbn. tauto.
  - rewrite Hp. simpl. tauto.
  - rewrite Hp. destruct (debounceTimeoutRef m0); cbn; tauto.
Qed.

End Timer.

(** * The further properties on concrete inputs *)

Section FurtherMiddlewareWitnesses.
Import Middleware.


Lemma tagged_output_is_prevalidated_witness :
  exists out,
    fst (run (middleware (ex_context None) (Return (ex_page [bytes_of_string "hi"]))))
      = Return out
    /\ run (middleware (ex_context None) (Return out)) = (Return out, []).
Proof.
  destruct (run (middleware (ex_context None) (Return (ex_page [bytes_of_string "hi"]))))
    as [[out|e] t] eqn:Hrun; [|vm_compute in Hrun; discriminate].
  exists out. split; [reflexivity |].
  unfold middleware.
  rewrite (tagged_output_is_prevalidated bytes_of_string webcrypto_digest
             (ex_context None) (ex_context None) (ex_page [bytes_of_string "hi"]) _ out t
             eq_refl eq_refl eq_refl ltac:(discriminate) Hrun).
  reflexivity.
Defined.


Lemma tagging_rejects_status_witness :
  run (middleware (ex_context None) (Return ex_proxied))
  = (Throw (RangeError "status"),
     [Drained (bytes_of_string "no"); Hashed (bytes_of_string "no")]).
Proof.
  apply (tagging_rejects_status bytes_of_string (ex_context None) ex_proxied _
           eq_refl eq_refl eq_refl).
  - right. simpl. lia.
  - discriminate.
Defined.

Lemma outcome_shapes_witness :
  exists v, if_none_match (ex_context (Some (quoted "v1"))) = Some v
            /\ Headers_get [("ETag", quoted "v1"); ("Cache-Control", long_lived)] "etag"
               = Some v.
Proof.
  destruct (outcome_shapes bytes_of_string webcrypto_digest
              (ex_context (Some (quoted "v1"))) ex_versioned
              (not_modified [("ETag", quoted "v1"); ("Cache-Control", long_lived)]) []
              eq_refl)
    as [[H _] | [(v & Hv & _ & _ & He) | (s & b & _ & Hb & _)]].
  - discriminate.
  - exists v. split; assumption.
  - discriminate.
Defined.

Lemma digest_hex_faithful_witness :
  fst (run (digest bytes_of_string webcrypto_digest (inr (bytes_of_string "a"))))
  <> fst (run (digest bytes_of_string webcrypto_digest (inr (bytes_of_string "b")))).
Proof.
  intros H.
  apply (digest_hex_faithful bytes_of_string webcrypto_digest
           (bytes_of_string "a") (bytes_of_string "b") _ _ eq_refl eq_refl) in H.
  vm_compute in H. discriminate.
Defined.

End FurtherMiddlewareWitnesses.

Section FurtherComponentWitnesses.
Import AsciifyReact Component.

Lemma ex_root_in_doc : In ex_root (descendants ex_doc).
Proof. simpl. right. right. right. left. reflexivity. Qed.

Lemma end_off_text_selects_nothing_witness :
  computeSelectedIndices createTreeWalker ex_doc (Some ex_root)
    (ex_select ex_range_to_element "AB") 2 = (∅, []).
Proof.
  apply (end_off_text_selects_nothing ex_doc ex_root
           {| ranges := [ex_range_to_element]; toString := "AB" |} ex_range_to_element 2
           eq_refl).
  apply (bool_decide_unpack _). vm_compute. exact I.
Defined.

Lemma start_off_text_selects_from_zero_witness :
  0 ∈ fst (computeSelectedIndices createTreeWalker ex_doc (Some ex_root)
             (ex_select ex_range_from_element "B") 2).
Proof.
  apply (start_off_text_selects_from_zero ex_doc ex_root
           {| ranges := [ex_range_from_element]; toString := "B" |} ex_range_from_element
           2 1 "B" ex_doc_ids_distinct ex_root_in_doc eq_refl).
  - discriminate.
  - reflexivity.
  - reflexivity.
  - apply (bool_decide_unpack _). vm_compute. exact I.
  - simpl. lia.
Defined.

Lemma span_font_follows_selection_witness :
  exists sp,
    spans (render "AB" "0x1f" {[ 1 ]} true) !! 1 = Some sp
    /\ data_font sp = "low-blockscript" /\ children sp = "B".
Proof.
  destruct (span_font_follows_selection "AB" "0x1f" {[ 1 ]} true 1)
    as (_ & sp & c & Hsp & Hc & _ & Hch & Hdf & _); [simpl; lia |].
  exists sp. split; [exact Hsp |]. split; [exact Hdf |].
  rewrite Hch. injection Hc as <-. reflexivity.
Defined.

Lemma mounted_selection_selects_characters_witness :
  (1 ∈ fst (computeSelectedIndices createTreeWalker ex_doc
              (Some (mount 1 ex_spanId ex_textId (render "AB" "0x1f" ∅ true)))
              (ex_select ex_range_AB "AB") 2))
  /\ (1 ∉ fst (computeSelectedIndices createTreeWalker ex_doc
                 (Some (mount 1 ex_spanId ex_textId (render "AB" "0x1f" ∅ true)))
                 (ex_select ex_range_AB "AB") 1)).
Proof.
  split.
  - apply (mounted_selection_selects_characters ex_doc 1 ex_spanId ex_textId "AB" "0x1f" ∅
             true {| ranges := [ex_range_AB]; toString := "AB" |} ex_range_AB 0 1 2
             ex_doc_ids_distinct ex_root_in_doc eq_refl).
    + discriminate.
    + reflexivity.
    + reflexivity.
    + lia.
    + simpl. lia.
    + simpl. lia.
  - intros H.
    apply (mounted_selection_selects_characters ex_doc 1 ex_spanId ex_textId "AB" "0x1f" ∅
             true {| ranges := [ex_range_AB]; toString := "AB" |} ex_range_AB 0 1 1
             ex_doc_ids_distinct ex_root_in_doc eq_refl) in H.
    + simpl in H. lia.
    + discriminate.
    + reflexivity.
    + reflexivity.
    + lia.
    + simpl. lia.
Defined.

Lemma burst_runs_callback_once_witness :
  exists id,
    pendingTimers (steps createTreeWalker (mounted ex_mounted_page 1)
                     (map SelectionChange ([ex_select ex_range_A "A"] ++ [ex_select ex_range_AB "AB"])))
    = [id]
    /\ selectedChars
         (page (step createTreeWalker
                  (steps createTreeWalker (mounted ex_mounted_page 1)
                     (map SelectionChange ([ex_select ex_range_A "A"] ++ [ex_select ex_range_AB "AB"])))
                  (TimerFires id)))
       = fst (computeSelectedIndices createTreeWalker ex_doc (Some ex_root)
                (ex_select ex_range_AB "AB") 2).
Proof.
  destruct (burst_runs_callback_once createTreeWalker (mounted ex_mounted_page 1) ex_root
              [ex_select ex_range_A "A"] (ex_select ex_range_AB "AB"))
    as (id & Hp & _ & _ & _ & _ & _ & Hs).
  - left. reflexivity.
  - reflexivity.
  - reflexivity.
  - exists id. split; [exact Hp | exact Hs].
Defined.

End FurtherComponentWitnesses.
